(** * ts-basics: the project board of [src/app.ts]

    A shallow embedding of the validator, the observable project store and
    the list component's store listener, with the properties of the
    specification stated over it.

    JavaScript values are modelled as the language defines them:
    - a [string] is a sequence of UTF-16 code units;
    - a [number] is an IEEE 754 binary64 value (Rocq's primitive floats);
    - objects and arrays live on a heap and are handled by reference, so
      that sharing between the store and the holders of a snapshot shows. *)

From Stdlib Require Import ZArith QArith Qround Qabs List Lia Bool String Ascii.
From Stdlib Require Import Floats.PrimFloat Floats.FloatOps Floats.SpecFloat.
From Stdlib Require Import Floats.FloatAxioms.
From Stdlib Require Import Numbers.Cyclic.Int63.Uint63.
From stdpp Require Import base list.

Set Warnings "-inexact-float".
Local Open Scope Z_scope.

(* ===================================================================== *)
(** ** JavaScript strings *)
(* ===================================================================== *)

Module JsString.

(** A string value: its UTF-16 code units, in order. *)
Definition jsstring := list Z.

(** ASCII text as a JavaScript string. *)
Definition js (s : String.string) : jsstring :=
  List.map (fun a => Z.of_N (N_of_ascii a)) (list_ascii_of_string s).

Definition between (lo hi c : Z) : bool := (lo <=? c) && (c <=? hi).

(** ECMAScript WhiteSpace and LineTerminator code points, the ones
    [String.prototype.trim] strips. All of them are in the basic plane. *)
Definition isWhiteSpace (c : Z) : bool :=
  between 0x09 0x0D c          (* TAB, LF, VT, FF, CR *)
  || (c =? 0x20)               (* SPACE *)
  || (c =? 0xA0)               (* NO-BREAK SPACE *)
  || (c =? 0x1680)
  || between 0x2000 0x200A c
  || (c =? 0x2028) || (c =? 0x2029)
  || (c =? 0x202F) || (c =? 0x205F)
  || (c =? 0x3000)
  || (c =? 0xFEFF).            (* ZERO WIDTH NO-BREAK SPACE *)

Fixpoint trimStart (s : jsstring) : jsstring :=
  match s with
  | c :: s' => if isWhiteSpace c then trimStart s' else s
  | [] => []
  end.

Definition trimEnd (s : jsstring) : jsstring := rev (trimStart (rev s)).

(** [String.prototype.trim] *)
Definition trim (s : jsstring) : jsstring := trimEnd (trimStart s).

End JsString.
Export JsString.

(* ===================================================================== *)
(** ** JavaScript numbers *)
(* ===================================================================== *)

Module JsNumber.

Definition number := float.

(** [a > b], [a < b], [a >= b], [a <= b] on numbers: IEEE comparisons,
    false as soon as one side is NaN. *)
Definition gt (a b : number) : bool := PrimFloat.ltb b a.
Definition lt (a b : number) : bool := PrimFloat.ltb a b.
Definition ge (a b : number) : bool := PrimFloat.leb b a.
Definition le (a b : number) : bool := PrimFloat.leb a b.

(** The number a length or an index is. Exact below 2^53, which is the
    bound ECMAScript puts on the length of a string. *)
Definition ofNat (n : nat) : number := of_uint63 (Uint63.of_Z (Z.of_nat n)).

(** *** Number::toString, radix 10 (ECMA-262, 6.1.6.1.20) *)

Fixpoint digitsAux (fuel : nat) (n : Z) (acc : jsstring) : jsstring :=
  match fuel with
  | O => acc
  | S f =>
      let acc' := (0x30 + n mod 10) :: acc in
      if n / 10 =? 0 then acc' else digitsAux f (n / 10) acc'
  end.

(** The decimal digits of a natural number, most significant first. *)
Definition decimal (n : Z) : jsstring :=
  digitsAux (S (Z.to_nat (Z.log2 n))) n [].

Definition pow10 (n : Z) : Q := Qpower (inject_Z 10) n.
Definition pow2 (n : Z) : Q := Qpower (inject_Z 2) n.

(** The reals that round (to nearest, ties to even) to the positive finite
    double [m * 2^e], with [m] and [e] as [Prim2SF] gives them: between the
    midpoints to the two neighbouring doubles, midpoints included exactly
    when [m] is even. *)
Definition roundsTo (m : positive) (e : Z) (q : Q) : bool :=
  let x := (inject_Z (Zpos m) * pow2 e)%Q in
  let up := (x + pow2 (e - 1))%Q in
  let low :=
    if (Zpos m =? 2 ^ 52) && (-1074 <? e)
    then (x - pow2 (e - 2))%Q else (x - pow2 (e - 1))%Q in
  if Z.even (Zpos m)
  then Qle_bool low q && Qle_bool q up
  else negb (Qle_bool q low) && negb (Qle_bool up q).

(** The least [n], from [n] on, with [x < 10^n]. *)
Fixpoint magnitude (fuel : nat) (n : Z) (x : Q) : Z :=
  match fuel with
  | O => n
  | S f => if Qle_bool (pow10 n) x then magnitude f (n + 1) x else n
  end.

(** A lower estimate of the magnitude of [m * 2^e], at most two below it:
    [log10 2] is a little less than 0.30103. *)
Definition estimate (m : positive) (e : Z) : Z :=
  (Z.log2 (Zpos m) + e) * 30103 / 100000.

Definition Qdist (a b : Q) : Q := Qabs (a - b).

(** Of two candidates [(n, s)] the one whose value [s * 10^(n-k)] is closer
    to [x]; on a tie the one with [s] even. *)
Definition closer (x : Q) (k : Z) (a b : Z * Z) : Z * Z :=
  let val (c : Z * Z) := (inject_Z (snd c) * pow10 (fst c - k))%Q in
  match Qcompare (Qdist (val a) x) (Qdist (val b) x) with
  | Lt => a
  | Gt => b
  | Eq => if Z.even (snd a) then a else b
  end.

(** The candidates [(n, s)] with [k] digits: [10^(k-1) <= s < 10^k] and
    [s * 10^(n-k)] rounds to the double. With [10^(n0-1) <= x < 10^n0] they
    are among the two integers next to [x / 10^(n0-k)] and the power [10^n0]
    itself. *)
Definition candidates (m : positive) (e : Z) (n0 k : Z) : list (Z * Z) :=
  let x := (inject_Z (Zpos m) * pow2 e)%Q in
  let s1 := Qfloor (x / pow10 (n0 - k)) in
  List.filter
    (fun c : Z * Z =>
       let (n, s) := c in
       (10 ^ (k - 1) <=? s) && (s <? 10 ^ k)
       && roundsTo m e (inject_Z s * pow10 (n - k)))
    [(n0, s1); (n0, s1 + 1); (n0 + 1, 10 ^ (k - 1))].

(** Step 5 of Number::toString: [n], [k] and [s] with [k] as small as
    possible, and [s * 10^(n-k)] as close to the double as [k] digits allow. *)
Fixpoint shortest (fuel : nat) (m : positive) (e : Z) (n0 k : Z)
  : Z * Z * Z :=
  let x := (inject_Z (Zpos m) * pow2 e)%Q in
  match candidates m e n0 k with
  | c :: cs => let (n, s) := fold_left (closer x k) cs c in (n, k, s)
  | [] =>
      match fuel with
      | S f => shortest f m e n0 (k + 1)
      | O => (n0, k, Qfloor (x / pow10 (n0 - k)))
      end
  end.

Definition zeros (n : Z) : jsstring := repeat 0x30 (Z.to_nat n).

(** Steps 6 to 10: the digits of [s] laid out by the position [n] of the
    decimal point. *)
Definition layout (n k s : Z) : jsstring :=
  let ds := decimal s in
  if (k <=? n) && (n <=? 21) then ds ++ zeros (n - k)
  else if (0 <? n) && (n <=? 21) then
    firstn (Z.to_nat n) ds ++ js "." ++ skipn (Z.to_nat n) ds
  else if (-6 <? n) && (n <=? 0) then js "0." ++ zeros (- n) ++ ds
  else
    let ex := js (if 0 <? n - 1 then "e+" else "e-") ++ decimal (Z.abs (n - 1)) in
    if k =? 1 then ds ++ ex
    else firstn 1 ds ++ js "." ++ skipn 1 ds ++ ex.

Definition toString (x : number) : jsstring :=
  match Prim2SF x with
  | S754_nan => js "NaN"
  | S754_zero _ => js "0"
  | S754_infinity sg => if sg then js "-Infinity" else js "Infinity"
  | S754_finite sg m e =>
      let q := (inject_Z (Zpos m) * pow2 e)%Q in
      let n0 := magnitude 8 (estimate m e) q in
      let '(n, k, s) := shortest 20 m e n0 1 in
      (if sg then js "-" else []) ++ layout n k s
  end.

End JsNumber.

(* ===================================================================== *)
(** ** Validation ([app.ts], lines 111-154) *)
(* ===================================================================== *)

Module Validator.

(** [value: string | number] *)
Inductive Value :=
| VString (s : jsstring)
| VNumber (x : JsNumber.number).

(** [interface Validatable]. An optional property that is absent (or
    [undefined]) is [None]. *)
Record Validatable := mkValidatable {
  value : Value;
  required : option bool;
  minLength : option JsNumber.number;
  maxLength : option JsNumber.number;
  min : option JsNumber.number;
  max : option JsNumber.number
}.

(** The object literal [{value: v}]. *)
Definition just (v : Value) : Validatable :=
  mkValidatable v None None None None None.

(** [value.toString()] *)
Definition toString (v : Value) : jsstring :=
  match v with
  | VString s => s
  | VNumber x => JsNumber.toString x
  end.

(** [typeof value === "string"] and [typeof value === "number"] *)
Definition isString (v : Value) : bool :=
  match v with VString _ => true | VNumber _ => false end.

Definition isNumber (v : Value) : bool :=
  match v with VString _ => false | VNumber _ => true end.

(** [if (validatableObj.required)]: [undefined] and [false] are falsy. *)
Definition truthy (b : option bool) : bool :=
  match b with
  | Some true => true
  | _ => false
  end.

(** [value.toString().trim().length !== 0] *)
Definition nonBlank (v : Value) : bool :=
  negb (Nat.eqb (length (trim (toString v))) 0).

(** [function validate(validatableObj: Validatable)]. The source updates
    [isValid] through five [if] statements; each [let] below is one of them,
    in the same order. *)
Definition validate (validatableObj : Validatable) : bool :=
  let isValid := true in
  let isValid :=
    if truthy (required validatableObj)
    then isValid && nonBlank (value validatableObj)
    else isValid in
  let isValid :=
    match minLength validatableObj, value validatableObj with
    | Some ml, VString s => isValid && JsNumber.ge (JsNumber.ofNat (length s)) ml
    | _, _ => isValid
    end in
  let isValid :=
    match maxLength validatableObj, value validatableObj with
    | Some ml, VString s => isValid && JsNumber.le (JsNumber.ofNat (length s)) ml
    | _, _ => isValid
    end in
  let isValid :=
    match min validatableObj, value validatableObj with
    | Some m, VNumber x => isValid && JsNumber.gt x m
    | _, _ => isValid
    end in
  let isValid :=
    match max validatableObj, value validatableObj with
    | Some m, VNumber x => isValid && JsNumber.lt x m
    | _, _ => isValid
    end in
  isValid.

(** The three constraint sets of [ProjectInput.gatherUserInput]
    (lines 206-222); [people] is the number [+enteredPeople]. *)
Definition titleConf (enteredTitle : jsstring) : Validatable :=
  mkValidatable (VString enteredTitle) (Some true) None None None None.

Definition descriptionConf (enteredDesc : jsstring) : Validatable :=
  mkValidatable (VString enteredDesc) (Some true) (Some 5%float) None None None.

Definition peopleConf (people : JsNumber.number) : Validatable :=
  mkValidatable (VNumber people) (Some true) None None
                (Some 1%float) (Some 10%float).

(** What [gatherUserInput] returns: the tuple when the three fields pass,
    nothing (after the alert) otherwise. *)
Definition gatherUserInput (enteredTitle enteredDesc : jsstring)
    (people : JsNumber.number)
  : option (jsstring * jsstring * JsNumber.number) :=
  if negb (validate (titleConf enteredTitle))
     || negb (validate (descriptionConf enteredDesc))
     || negb (validate (peopleConf people))
  then None
  else Some (enteredTitle, enteredDesc, people).

End Validator.

(* ===================================================================== *)
(** ** The project store ([app.ts], lines 36-107) and its listeners *)
(* ===================================================================== *)

Module Store.

Local Open Scope nat_scope.

(** [enum ProjectStatus] *)
Inductive ProjectStatus := Active | Finished.

#[global] Instance ProjectStatus_eq_dec : EqDecision ProjectStatus.
Proof. solve_decision. Defined.

(** [class Project] *)
Record Project := mkProject {
  id : jsstring;
  title : jsstring;
  description : jsstring;
  people : JsNumber.number;
  status : ProjectStatus
}.

(** [prj.status = newStatus] *)
Definition setStatus (newStatus : ProjectStatus) (prj : Project) : Project :=
  mkProject (id prj) (title prj) (description prj) (people prj) newStatus.

(** A reference to a [Project] object, and one to a [Project[]] array:
    their positions in the heap. *)
Abbreviation ref := nat (only parsing).
Abbreviation aref := nat (only parsing).

(** The [projectType] of a [ProjectList]: ["active" | "finished"]. *)
Inductive ListType := active | finished.

(** The part of a [class ProjectList] component the store listener writes. *)
Record ProjectList := mkProjectList {
  projectType : ListType;
  assignedProjects : aref
}.

(** A registered [Listener<Project>]. [ListListener c] is the closure that
    [ProjectList.configure] registers for the component [c] (its [this]).
    [Callback tag] is any other function a client registers: its body is
    not part of the repository, so the model records that it is called and
    which array it is handed; what the holder of that array can do with it
    afterwards is the subject of [SnapshotOp] below. In this module its
    call returns and leaves the heap alone, which is the case the store's
    own operations are stated for; the module [Client] runs the loop of
    [updateListeners] with functions that write and throw. *)
Inductive Listener :=
| ListListener (c : nat)
| Callback (tag : nat).

(** The heap and the objects of the program.
    - [objs]: the [Project] objects, by reference;
    - [arrs]: the [Project[]] arrays, by reference, each a list of references;
    - [listeners], [projects]: the two fields of the [ProjectState] instance,
      the second a reference to its private array;
    - [lists]: the [ProjectList] components;
    - [calls]: the listener invocations made so far, each with the array it
      was passed (a trace, for stating who was notified and with what). *)
Record World := mkWorld {
  objs : list Project;
  arrs : list (list ref);
  listeners : list Listener;
  projects : aref;
  lists : list ProjectList;
  calls : list (Listener * aref)
}.

Definition set_objs (o : list Project) (w : World) : World :=
  mkWorld o (arrs w) (listeners w) (projects w) (lists w) (calls w).
Definition set_arrs (a : list (list ref)) (w : World) : World :=
  mkWorld (objs w) a (listeners w) (projects w) (lists w) (calls w).
Definition set_listeners (l : list Listener) (w : World) : World :=
  mkWorld (objs w) (arrs w) l (projects w) (lists w) (calls w).
Definition set_lists (l : list ProjectList) (w : World) : World :=
  mkWorld (objs w) (arrs w) (listeners w) (projects w) l (calls w).
Definition set_calls (c : list (Listener * aref)) (w : World) : World :=
  mkWorld (objs w) (arrs w) (listeners w) (projects w) (lists w) c.

(** The elements of the array [a]. *)
Definition arr (w : World) (a : aref) : list ref :=
  default [] (arrs w !! a).

(** The records an array holds, in order. *)
Definition records (w : World) (a : aref) : list Project :=
  omap (fun r : ref => objs w !! r) (arr w a).

(** The store's sequence: the content of its private array. *)
Definition sequence (w : World) : list Project := records w (projects w).

Definition ids (w : World) : list jsstring := List.map id (sequence w).

(** [new Array] with the given elements: the new reference and the heap. *)
Definition allocArr (l : list ref) (w : World) : aref * World :=
  (length (arrs w), set_arrs (arrs w ++ [l]) w).

(** [ProjectState.getInstance()] on first use: [listeners = []],
    [projects = []]. *)
Definition init : World := mkWorld [] [[]] [] 0 [] [].

(** [State.addListener] *)
Definition addListener (listener : Listener) (w : World) : World :=
  set_listeners (listeners w ++ [listener]) w.

(** The filter of the list component's listener (lines 357-362). *)
Definition relevant (ty : ListType) (prj : Project) : bool :=
  match ty with
  | active => bool_decide (status prj = Active)
  | finished => bool_decide (status prj = Finished)
  end.

Definition relevantRef (w : World) (ty : ListType) (r : ref) : bool :=
  match objs w !! r with
  | Some prj => relevant ty prj
  | None => false
  end.

(** The closure of [ProjectList.configure] (lines 356-366), called with the
    array [items]: [filter] makes a new array, which replaces
    [assignedProjects]. [renderProjects] writes to the DOM only. *)
Definition listListener (c : nat) (items : aref) (w : World) : World :=
  match lists w !! c with
  | Some pl =>
      let (relevantProjects, w1) :=
        allocArr (List.filter (relevantRef w (projectType pl)) (arr w items)) w in
      set_lists (<[c := mkProjectList (projectType pl) relevantProjects]> (lists w1)) w1
  | None => w
  end.

(** A call [listener(items)] that returns: see [Client.invoke] for one that
    may not. *)
Definition invoke (listener : Listener) (items : aref) (w : World) : World :=
  let w1 := set_calls (calls w ++ [(listener, items)]) w in
  match listener with
  | ListListener c => listListener c items w1
  | Callback _ => w1
  end.

(** [this.projects.slice()] *)
Definition slice (w : World) : aref * World :=
  allocArr (arr w (projects w)) w.

(** [ProjectState.updateListeners]: one iteration of the loop, and the loop. *)
Definition notify (w : World) (listener : Listener) : World :=
  let (items, w1) := slice w in invoke listener items w1.

Definition updateListeners (w : World) : World :=
  fold_left notify (listeners w) w.

(** [this.projects.push(newProject)], with the object allocated. *)
Definition pushProject (newProject : Project) (w : World) : World :=
  let r := length (objs w) in
  set_arrs (alter (fun l => l ++ [r]) (projects w) (arrs w))
           (set_objs (objs w ++ [newProject]) w).

(** [ProjectState.addProject]. [rnd] is the value [Math.random()] returns
    in this call. *)
Definition addProject (rnd : JsNumber.number) (title desc : jsstring)
    (people : JsNumber.number) (w : World) : World :=
  let newProject :=
    mkProject (JsNumber.toString rnd) title desc people Active in
  updateListeners (pushProject newProject w).

(** [this.projects.find((prj) => prj.id === projectId)] *)
Definition findProject (projectId : jsstring) (w : World) : option ref :=
  List.find
    (fun r : ref =>
       match objs w !! r with
       | Some prj => bool_decide (id prj = projectId)
       | None => false
       end)
    (arr w (projects w)).

(** [ProjectState.moveProject] *)
Definition moveProject (projectId : jsstring) (newStatus : ProjectStatus)
    (w : World) : World :=
  match findProject projectId w with
  | Some r =>
      match objs w !! r with
      | Some prj =>
          if bool_decide (status prj <> newStatus)
          then updateListeners (set_objs (alter (setStatus newStatus) r (objs w)) w)
          else w
      | None => w
      end
  | None => w
  end.

(** [new ProjectList(projectType)], as far as the store is concerned: the
    field initialiser and the constructor each make an empty array, then
    [configure] registers the listener. *)
Definition newProjectList (ty : ListType) (w : World) : World :=
  let (_, w1) := allocArr [] w in
  let (a, w2) := allocArr [] w1 in
  let c := length (lists w2) in
  addListener (ListListener c)
    (set_lists (lists w2 ++ [mkProjectList ty a]) w2).

(** [ProjectList.dropHandler], given the payload of the drop. *)
Definition dropHandler (c : nat) (projectId : jsstring) (w : World) : World :=
  match lists w !! c with
  | Some pl =>
      moveProject projectId
        (match projectType pl with active => Active | finished => Finished end) w
  | None => w
  end.

(** The operations of the store, for statements about all of them. *)
Inductive Op :=
| OpAddListener (listener : Listener)
| OpAddProject (rnd : JsNumber.number) (title desc : jsstring)
               (people : JsNumber.number)
| OpUpdateListeners
| OpMoveProject (projectId : jsstring) (newStatus : ProjectStatus).

Definition exec (o : Op) (w : World) : World :=
  match o with
  | OpAddListener l => addListener l w
  | OpAddProject rnd t d p => addProject rnd t d p w
  | OpUpdateListeners => updateListeners w
  | OpMoveProject i s => moveProject i s w
  end.

(** What the holder of an array it was passed can do to it: change the array
    object itself ([push], [pop], [splice], [sort], [items[i] = x],
    [items.length = n]: any [f] on its elements), or write a field of a
    record it holds ([items[i].status = s] and the like: any [f] on the
    record). With no record at [i] the write throws and changes nothing. *)
Inductive SnapshotOp :=
| ArrayOp (f : list ref -> list ref)
| FieldWrite (i : nat) (f : Project -> Project).

Definition holderStep (items : aref) (op : SnapshotOp) (w : World) : World :=
  match op with
  | ArrayOp f => set_arrs (alter f items (arrs w)) w
  | FieldWrite i f =>
      match arr w items !! i with
      | Some r => set_objs (alter f r (objs w)) w
      | None => w
      end
  end.

(** Two records that agree on every field but, possibly, [status]. *)
Definition sameButStatus (p q : Project) : Prop :=
  id q = id p /\ title q = title p /\ description q = description p
  /\ people q = people p.

(** The subset a list component remembers: the elements of its
    [assignedProjects]. *)
Definition assigned (w : World) (c : nat) : list ref :=
  match lists w !! c with
  | Some pl => arr w (assignedProjects pl)
  | None => []
  end.

(** [r] is the first record of the store's array whose id is [projectId]. *)
Definition firstWithId (w : World) (projectId : jsstring) (r : ref) : Prop :=
  exists (pre post : list ref) (prj : Project),
    arr w (projects w) = pre ++ r :: post
    /\ objs w !! r = Some prj
    /\ id prj = projectId
    /\ forall r' prj', r' ∈ pre -> objs w !! r' = Some prj' -> id prj' <> projectId.

(** The representation invariant: the store's array exists; it holds
    references to existing records, each once; and no array that was handed
    to a listener is the store's own. *)
Definition wf (w : World) : Prop :=
  projects w < length (arrs w)
  /\ Forall (fun r : ref => r < length (objs w)) (arr w (projects w))
  /\ NoDup (arr w (projects w))
  /\ Forall (fun c : Listener * aref => snd c <> projects w) (calls w).

(** The states of a run: from the initial one by operations of the store,
    by creating list components, and by whatever the holders of the arrays
    handed to listeners do with them. *)
Inductive Reachable : World -> Prop :=
| reach_init : Reachable init
| reach_exec o w : Reachable w -> Reachable (exec o w)
| reach_list ty w : Reachable w -> Reachable (newProjectList ty w)
| reach_holder l a op w :
    Reachable w -> (l, a) ∈ calls w -> Reachable (holderStep a op w).

(** What one run of [updateListeners] from [w] to [w'] leaves in the trace:
    one call per registered listener, in registration order, each with an
    array of its own that is not the store's and holds what the store's
    array holds. *)
Definition notified (w w' : World) : Prop :=
  exists snaps : list aref,
    calls w' = calls w ++ zip (listeners w) snaps
    /\ length snaps = length (listeners w)
    /\ NoDup snaps
    /\ Forall (fun a : aref =>
                 length (arrs w) <= a < length (arrs w')
                 /\ a <> projects w'
                 /\ arr w' a = arr w' (projects w')) snaps.

(** *** States of example runs *)

(** One client callback registered, then one project created; the draw of
    [Math.random()] is 0.5. *)
Definition w_one : World :=
  addProject 0.5%float (js "A") (js "desc!!") 3%float
             (addListener (Callback 0) init).

(** A second project created with the same draw, then a move to Finished,
    which takes the first of the two. *)
Definition w_clash : World :=
  moveProject (js "0.5") Finished
    (addProject 0.5%float (js "B") (js "other") 2%float w_one).

(** The board of [app.ts] (lines 383-384): the active and the finished list,
    in this order; then the project of the end-to-end scenario. *)
Definition w_lists : World :=
  newProjectList finished (newProjectList active init).

Definition w_board : World :=
  addProject 0.5%float (js "A") (js "desc!!") 3%float w_lists.

End Store.

(* ===================================================================== *)
(** ** The components on the store ([app.ts], lines 182-384) *)
(* ===================================================================== *)

Module Ui.

Import Validator Store.
Local Open Scope nat_scope.

(** [ProjectInput.submitHandler] (lines 241-253), with the three fields as
    entered ([people] is [+enteredPeople]) and the draw of [Math.random()]
    in case a project is created. The alert and the reset of the form touch
    the DOM only. *)
Definition submitHandler (rnd : JsNumber.number)
    (enteredTitle enteredDesc : jsstring) (people : JsNumber.number)
    (w : World) : World :=
  match gatherUserInput enteredTitle enteredDesc people with
  | Some (title, desc, people) => addProject rnd title desc people w
  | None => w
  end.

(** [get persons()] of [ProjectItem] (lines 269-273). *)
Definition persons (project : Project) : jsstring :=
  if PrimFloat.eqb (people project) 1%float
  then js "1 Person"
  else JsNumber.toString (people project) ++ js " persons".

(** What a [ProjectItem] shows: the id its element gets in the constructor
    of [Component] (lines 18-20: none when the string is empty), and the
    three texts of [renderContent] (lines 297-301). *)
Record Item := mkItem {
  elementId : option jsstring;
  h2 : jsstring;
  h3 : jsstring;
  p : jsstring
}.

Definition projectItem (project : Project) : Item :=
  mkItem (match id project with [] => None | _ => Some (id project) end)
         (title project)
         (persons project ++ js " assigned.")
         (description project).

(** [ProjectList.renderProjects] (lines 318-326): the list is emptied, then
    one item per assigned project is appended, in order. *)
Definition renderProjects (w : World) (c : nat) : list Item :=
  List.map projectItem
    (omap (fun r : nat => objs w !! r) (assigned w c)).

(** [ProjectItem.dragStartHandler] (lines 283-286): the payload of the drag. *)
Definition dragStartHandler (project : Project) : jsstring := id project.

(** The events of the page: a submit of the form, and a drop on a list of
    a drag that carries some text. *)
Inductive Event :=
| Submit (rnd : JsNumber.number) (enteredTitle enteredDesc : jsstring)
         (people : JsNumber.number)
| Drop (c : nat) (payload : jsstring).

Definition handle (e : Event) (w : World) : World :=
  match e with
  | Submit rnd t d n => submitHandler rnd t d n w
  | Drop c payload => dropHandler c payload w
  end.

(** The states of the board under its events, from the page as [app.ts]
    sets it up (lines 382-384). *)
Inductive UiReachable : World -> Prop :=
| ui_init : UiReachable w_lists
| ui_event e w : UiReachable w -> UiReachable (handle e w).

(** The states of the board under any use of the store. *)
Inductive BoardReachable : World -> Prop :=
| board_init : BoardReachable w_lists
| board_exec o w : BoardReachable w -> BoardReachable (exec o w).

(** The operations of the store in which no client's function is
    registered. *)
Definition ownOp (o : Op) : bool :=
  match o with OpAddListener _ => false | _ => true end.

(** The states of the page as [app.ts] leaves it: the listeners of its two
    lists and no other, under any use of the store by the page. *)
Inductive PageReachable : World -> Prop :=
| page_init : PageReachable w_lists
| page_exec o w : ownOp o = true -> PageReachable w -> PageReachable (exec o w).

(** What the form accepts. *)
Definition hasContent (s : jsstring) : Prop :=
  exists c, In c s /\ isWhiteSpace c = false.

Definition accepted (enteredTitle enteredDesc : jsstring)
    (people : JsNumber.number) : Prop :=
  hasContent enteredTitle
  /\ hasContent enteredDesc
  /\ JsNumber.ge (JsNumber.ofNat (length enteredDesc)) 5%float = true
  /\ JsNumber.gt people 1%float = true
  /\ JsNumber.lt people 10%float = true.

Definition formValid (project : Project) : Prop :=
  accepted (title project) (description project) (people project).

(** A list component shows the records of its category, as the store has
    them. *)
Definition inSync (w : World) : Prop :=
  forall c pl, lists w !! c = Some pl ->
    ListListener c ∈ listeners w
    /\ assigned w c
       = List.filter (relevantRef w (projectType pl)) (arr w (projects w)).

(** The invariant of the board: the store is well formed, the two lists of
    the page are the active and the finished one, and every list is
    registered and in step with the store. *)
Definition boardInv (w : World) : Prop :=
  wf w
  /\ inSync w
  /\ projectType <$> lists w !! 0 = Some active
  /\ projectType <$> lists w !! 1 = Some finished.

End Ui.

(* ===================================================================== *)
(** * Notification with the clients' listeners running *)
(* ===================================================================== *)

(** [Store.invoke] takes a client's function as one that returns and leaves
    the heap alone, which is all the store's own operations need. Here the
    function runs: it works on the array it is passed, on the array object
    or on the records in it, and it returns or throws. [updateListeners]
    has no [try] (lines 93-97): a call that throws ends the loop, and the
    exception leaves [updateListeners]. A function that calls back into the
    store is outside this model. *)
Module Client.

Import Store.
Local Open Scope nat_scope.

(** How a call ends. *)
Inductive Outcome := Returned | Thrown.

(** What a client's function does in one call: operations on the array it
    is passed, in order, and then a [throw] or not. *)
Record Behaviour := mkBehaviour {
  acts : list SnapshotOp;
  throws : bool
}.

(** The clients' functions, by the tag they are registered under. What a
    function does may depend on the state it finds and on the array it is
    passed. *)
Definition Clients : Type := nat -> World -> aref -> Behaviour.

(** The operations of a call on [items]. A write to a field of [items[i]]
    with no record at [i] is a TypeError: the call ends there. *)
Fixpoint run (items : aref) (ops : list SnapshotOp) (w : World)
    : World * Outcome :=
  match ops with
  | [] => (w, Returned)
  | op :: ops' =>
      match op with
      | ArrayOp _ => run items ops' (holderStep items op w)
      | FieldWrite i _ =>
          match arr w items !! i with
          | Some _ => run items ops' (holderStep items op w)
          | None => (w, Thrown)
          end
      end
  end.

Definition client (b : Behaviour) (items : aref) (w : World)
    : World * Outcome :=
  match run items (acts b) w with
  | (w', Returned) => (w', if throws b then Thrown else Returned)
  | thrown => thrown
  end.

(** A call [listener(items)]. *)
Definition invoke (cl : Clients) (listener : Listener) (items : aref)
    (w : World) : World * Outcome :=
  let w1 := set_calls (calls w ++ [(listener, items)]) w in
  match listener with
  | ListListener c => (listListener c items w1, Returned)
  | Callback tag => client (cl tag w1 items) items w1
  end.

(** [ProjectState.updateListeners]: one iteration of the loop, and the
    loop, which a call that throws ends. *)
Definition notify (cl : Clients) (w : World) (listener : Listener)
    : World * Outcome :=
  let (items, w1) := slice w in invoke cl listener items w1.

Fixpoint notifyAll (cl : Clients) (ls : list Listener) (w : World)
    : World * Outcome :=
  match ls with
  | [] => (w, Returned)
  | l :: ls' =>
      match notify cl w l with
      | (w1, Returned) => notifyAll cl ls' w1
      | thrown => thrown
      end
  end.

Definition updateListeners (cl : Clients) (w : World) : World * Outcome :=
  notifyAll cl (listeners w) w.

(** Clients that return and do nothing. *)
Definition inert : Clients := fun _ _ _ => mkBehaviour [] false.



(** *** Clients of example runs *)




End Client.

(* ===================================================================== *)
(** * Properties *)
(* ===================================================================== *)

(** ** Strings and numbers *)

Section Builtins.

(** [Number::toString] on values of the kinds the program meets: integers,
    fractions, the exponent forms, the shortest digits that read back as the
    same double, and the special values. *)
Example toString_samples :
  List.map JsNumber.toString
    [5%float; 0.1%float; 5.0001%float; 10%float; 1e21%float; 1e23%float;
     1e-7%float; 0.000001%float; (-12.5)%float; 0.7215400257609488%float;
     5e-324%float; 1.7976931348623157e308%float; 123456789012345680000%float;
     0.30000000000000004%float; nan; neg_infinity; 4294967296%float]
  = List.map js
    ["5"; "0.1"; "5.0001"; "10"; "1e+21"; "1e+23";
     "1e-7"; "0.000001"; "-12.5"; "0.7215400257609488";
     "5e-324"; "1.7976931348623157e+308"; "123456789012345680000";
     "0.30000000000000004"; "NaN"; "-Infinity"; "4294967296"]%string.
Proof. vm_compute. reflexivity. Qed.

Example trim_samples :
  trim (js "  a b  ") = js "a b"
  /\ trim ([0x09; 0xA0; 0x2003; 0x41; 0xFEFF; 0x0A]) = [0x41]
  /\ trim (js "   ") = []
  /\ trim [] = [].
Proof. repeat split. Qed.

(** A double compares equal to itself or, when it is NaN, not at all: never
    below itself. *)
Lemma SFcompare_refl_not_Lt (f : spec_float) : SFcompare f f <> Some Lt.
Proof.
  destruct f as [s| s | |s m e]; simpl; try destruct s; try discriminate.
  - rewrite Z.compare_refl.
    change (Pos.compare_cont Eq m m) with (Pos.compare m m).
    rewrite Pos.compare_refl. discriminate.
  - rewrite Z.compare_refl.
    change (Pos.compare_cont Eq m m) with (Pos.compare m m).
    rewrite Pos.compare_refl. discriminate.
Qed.

Lemma gt_irrefl (x : JsNumber.number) : JsNumber.gt x x = false.
Proof.
  unfold JsNumber.gt. rewrite FloatAxioms.ltb_spec. unfold SFltb.
  pose proof (SFcompare_refl_not_Lt (Prim2SF x)) as H.
  destruct (SFcompare (Prim2SF x) (Prim2SF x)) as [[ | | ]|]; congruence.
Qed.

Lemma lt_irrefl (x : JsNumber.number) : JsNumber.lt x x = false.
Proof. exact (gt_irrefl x). Qed.

End Builtins.

(* ===================================================================== *)
(** ** The validator *)
(* ===================================================================== *)

Section ValidatorProperties.

Import Validator.

(** The result is a conjunction: each constraint that applies is one more
    factor, in the order of the source. *)
Lemma validate_factors (v : Validatable) :
  validate v =
    (if truthy (required v) then nonBlank (value v) else true)
    && match minLength v, value v with
       | Some m, VString s => JsNumber.ge (JsNumber.ofNat (length s)) m
       | _, _ => true
       end
    && match maxLength v, value v with
       | Some m, VString s => JsNumber.le (JsNumber.ofNat (length s)) m
       | _, _ => true
       end
    && match min v, value v with
       | Some m, VNumber x => JsNumber.gt x m
       | _, _ => true
       end
    && match max v, value v with
       | Some m, VNumber x => JsNumber.lt x m
       | _, _ => true
       end.
Proof.
  destruct v as [[s|x] [[|]|] [ml|] [xl|] [mn|] [mx|]];
    unfold validate; cbn; rewrite ?andb_true_r; reflexivity.
Qed.

(** C4. For a numeric value the bounds are exclusive: with [min] present
    [validate] can only return true when [value > min], with [max] present
    only when [value < max]; a value equal to its bound is rejected. So
    [validate({value:5, min:5})] is false, [validate({value:5.0001, min:5})]
    is true, and the people field of the form (min 1, max 10) rejects both
    1 and 10. *)
Theorem validate_numeric_bounds_strict (v : Validatable) (x : JsNumber.number)
    (Hnum : value v = VNumber x) :
  (forall m, min v = Some m -> validate v = true -> JsNumber.gt x m = true)
  /\ (forall m, max v = Some m -> validate v = true -> JsNumber.lt x m = true)
  /\ (min v = Some x -> validate v = false)
  /\ (max v = Some x -> validate v = false)
  /\ validate (mkValidatable (VNumber 5%float) None None None (Some 5%float) None) = false
  /\ validate (mkValidatable (VNumber 5.0001%float) None None None (Some 5%float) None) = true
  /\ validate (peopleConf 1%float) = false
  /\ validate (peopleConf 10%float) = false.
Proof.
  split; [|split; [|split; [|split]]].
  - intros m Hm Hv. rewrite validate_factors, Hnum, Hm in Hv.
    rewrite !andb_true_iff in Hv. tauto.
  - intros m Hm Hv. rewrite validate_factors, Hnum, Hm in Hv.
    rewrite !andb_true_iff in Hv. tauto.
  - intros Hm. rewrite validate_factors, Hnum, Hm, gt_irrefl.
    rewrite andb_false_r. reflexivity.
  - intros Hm. rewrite validate_factors, Hnum, Hm, lt_irrefl.
    apply andb_false_r.
  - vm_compute. repeat split.
Qed.

Lemma validate_numeric_bounds_strict_witness :
  Validator.value (peopleConf 7%float) = VNumber 7%float
  /\ validate (peopleConf 7%float) = true
  /\ JsNumber.gt 7%float 1%float = true
  /\ JsNumber.lt 7%float 10%float = true.
Proof.
  pose proof (validate_numeric_bounds_strict (peopleConf 7%float) 7%float eq_refl)
    as (Hmin & Hmax & _).
  assert (Hv : validate (peopleConf 7%float) = true) by (vm_compute; reflexivity).
  exact (conj eq_refl
           (conj Hv (conj (Hmin 1%float eq_refl Hv) (Hmax 10%float eq_refl Hv)))).
Defined.

Lemma trimStart_nil_iff (s : jsstring) :
  trimStart s = [] <-> forallb isWhiteSpace s = true.
Proof.
  induction s as [|c s IH]; simpl; [tauto|].
  destruct (isWhiteSpace c); simpl; [exact IH|].
  split; discriminate.
Qed.

(** What [required] asks of a string: some code unit that is not white
    space. *)
Lemma trim_nil_iff (s : jsstring) :
  trim s = [] <-> forallb isWhiteSpace s = true.
Proof.
  unfold trim, trimEnd. split.
  - intros H. apply (f_equal (@rev Z)) in H. rewrite rev_involutive in H.
    simpl in H. apply trimStart_nil_iff in H.
    rewrite forallb_forall in H. setoid_rewrite <- in_rev in H.
    destruct (trimStart s) as [|c t] eqn:E; [now apply trimStart_nil_iff|].
    assert (Hc : isWhiteSpace c = true) by (apply H; now left).
    clear H. exfalso. revert E Hc. clear.
    induction s as [|d s IH]; simpl; [discriminate|].
    destruct (isWhiteSpace d) eqn:Ed; [exact IH|].
    intros [= -> _]. congruence.
  - intros H. apply trimStart_nil_iff in H. rewrite H. reflexivity.
Qed.

(** C5. [validate] is a total function to the booleans. With [required]
    true the result is false unless the value, as a string and trimmed, is
    non-empty: [required] adds exactly that factor to the result. With
    [required] false or absent nothing of the kind is checked: the result is
    the one of the remaining constraints, and the empty string passes.
    [validate({value: "", required: true})] is false. *)
Theorem validate_required (val : Value) (req : option bool)
    (ml xl mn mx : option JsNumber.number) :
  (exists b : bool, validate (mkValidatable val req ml xl mn mx) = b)
  /\ (trim (toString val) = [] ->
      validate (mkValidatable val (Some true) ml xl mn mx) = false)
  /\ validate (mkValidatable val (Some true) ml xl mn mx)
     = negb (Nat.eqb (length (trim (toString val))) 0)
       && validate (mkValidatable val None ml xl mn mx)
  /\ validate (mkValidatable val (Some false) ml xl mn mx)
     = validate (mkValidatable val None ml xl mn mx)
  /\ validate (mkValidatable (VString []) (Some true) None None None None) = false
  /\ validate (mkValidatable (VString []) (Some false) None None None None) = true
  /\ validate (mkValidatable (VString []) None None None None None) = true.
Proof.
  split; [eexists; reflexivity|].
  split; [|split; [|split]].
  - intros H. rewrite validate_factors. cbn. unfold nonBlank. rewrite H.
    reflexivity.
  - rewrite !validate_factors. cbn. unfold nonBlank.
    rewrite <- !andb_assoc. reflexivity.
  - rewrite !validate_factors. reflexivity.
  - cbn. auto.
Qed.

Lemma validate_required_witness :
  trim (Validator.toString (VString (js "  "))) = []
  /\ validate (titleConf (js "  ")) = false.
Proof.
  assert (H : trim (Validator.toString (VString (js "  "))) = [])
    by reflexivity.
  exact (conj H
    (proj1 (proj2 (validate_required (VString (js "  ")) None None None None None)) H)).
Defined.

(** C6. The length bounds are for strings and are inclusive: for a textual
    value [validate] can only return true when [length >= minLength] (if
    present) and [length <= maxLength] (if present), and a length equal to
    the bound passes. [validate({value: "ab", minLength: 5})] is false. For
    a numeric value the two bounds are not looked at: any change of them
    leaves the result as it is. *)
Theorem validate_length_bounds (v : Validatable) (s : jsstring)
    (Hstr : value v = VString s) :
  (forall m, minLength v = Some m -> validate v = true ->
             JsNumber.ge (JsNumber.ofNat (length s)) m = true)
  /\ (forall m, maxLength v = Some m -> validate v = true ->
                JsNumber.le (JsNumber.ofNat (length s)) m = true)
  /\ validate (mkValidatable (VString (js "ab")) None (Some 5%float) None None None) = false
  /\ validate (mkValidatable (VString (js "abcde")) None (Some 5%float) None None None) = true
  /\ validate (mkValidatable (VString (js "abcde")) None None (Some 5%float) None None) = true
  /\ validate (mkValidatable (VString (js "abcdef")) None None (Some 5%float) None None) = false
  /\ (forall x req ml xl ml' xl' mn mx,
        validate (mkValidatable (VNumber x) req ml xl mn mx)
        = validate (mkValidatable (VNumber x) req ml' xl' mn mx)).
Proof.
  split; [|split; [|split; [|split; [|split; [|split]]]]].
  - intros m Hm Hv. rewrite validate_factors, Hstr, Hm in Hv.
    rewrite !andb_true_iff in Hv. tauto.
  - intros m Hm Hv. rewrite validate_factors, Hstr, Hm in Hv.
    rewrite !andb_true_iff in Hv. tauto.
  - reflexivity.
  - reflexivity.
  - reflexivity.
  - reflexivity.
  - intros. rewrite !validate_factors. cbn.
    destruct ml, xl, ml', xl'; reflexivity.
Qed.

Lemma validate_length_bounds_witness :
  Validator.value (descriptionConf (js "desc!!")) = VString (js "desc!!")
  /\ validate (descriptionConf (js "desc!!")) = true
  /\ JsNumber.ge (JsNumber.ofNat (length (js "desc!!"))) 5%float = true.
Proof.
  assert (Hv : validate (descriptionConf (js "desc!!")) = true) by reflexivity.
  exact (conj eq_refl (conj Hv
    (proj1 (validate_length_bounds (descriptionConf (js "desc!!")) (js "desc!!")
              eq_refl) 5%float eq_refl Hv))).
Defined.

(** C10. When no constraint applies the value is valid: with [required]
    absent or false, [minLength] and [maxLength] absent or the value not a
    string, [min] and [max] absent or the value not a number, [validate]
    returns true. So [validate({value: v})] is true for every [v]. *)
Theorem validate_vacuous (v : Validatable)
    (Hreq : required v = None \/ required v = Some false)
    (Hminl : minLength v = None \/ isString (value v) = false)
    (Hmaxl : maxLength v = None \/ isString (value v) = false)
    (Hmin : min v = None \/ isNumber (value v) = false)
    (Hmax : max v = None \/ isNumber (value v) = false) :
  validate v = true /\ (forall val : Value, validate (just val) = true).
Proof.
  split.
  - rewrite validate_factors.
    destruct v as [[s|x] req ml xl mn mx]; cbn in *;
      destruct Hreq as [-> | ->], Hminl as [-> | ?], Hmaxl as [-> | ?],
               Hmin as [-> | ?], Hmax as [-> | ?];
      cbn; try discriminate; try reflexivity;
      repeat match goal with |- context [match ?o with _ => _ end] =>
                               destruct o end; reflexivity.
  - intros [s|x]; reflexivity.
Qed.

Lemma validate_vacuous_witness :
  validate (mkValidatable (VNumber 0%float) (Some false)
              (Some 3%float) (Some 1%float) None None) = true.
Proof.
  exact (proj1 (validate_vacuous
    (mkValidatable (VNumber 0%float) (Some false) (Some 3%float) (Some 1%float)
       None None)
    (or_intror eq_refl) (or_intror eq_refl) (or_intror eq_refl)
    (or_introl eq_refl) (or_introl eq_refl))).
Defined.

(** A required string that passes has a code unit that is not white
    space. *)
Lemma required_string_has_content (s : jsstring)
    (ml xl mn mx : option JsNumber.number) :
  validate (mkValidatable (VString s) (Some true) ml xl mn mx) = true ->
  exists c, In c s /\ isWhiteSpace c = false.
Proof.
  intros H. rewrite validate_factors in H. cbn in H.
  rewrite !andb_true_iff in H. destruct H as [[[[H _] _] _] _].
  unfold nonBlank, toString in H.
  assert (Hne : trim s <> []) by (intros E; rewrite E in H; discriminate).
  rewrite trim_nil_iff in Hne. clear H.
  induction s as [|c s IH]; cbn in Hne; [congruence|].
  destruct (isWhiteSpace c) eqn:E.
  - destruct (IH Hne) as (d & Hd & Hw). exists d. split; [now right|done].
  - exists c. split; [now left|done].
Qed.

(** The form hands its three fields on exactly when each of them is valid. *)
Lemma gatherUserInput_Some (enteredTitle enteredDesc : jsstring)
    (people : JsNumber.number) :
  gatherUserInput enteredTitle enteredDesc people
  = (if validate (titleConf enteredTitle)
        && validate (descriptionConf enteredDesc)
        && validate (peopleConf people)
     then Some (enteredTitle, enteredDesc, people) else None).
Proof.
  unfold gatherUserInput.
  destruct (validate (titleConf enteredTitle)),
           (validate (descriptionConf enteredDesc)),
           (validate (peopleConf people)); reflexivity.
Qed.

End ValidatorProperties.

(* ===================================================================== *)
(** ** The store: heap lemmas *)
(* ===================================================================== *)

Section StoreHeap.

Import Store.
Local Open Scope nat_scope.

Implicit Types (w : World) (l : Listener) (ls : list Listener).
Implicit Types (a : aref) (r : ref) (prj : Project).



(** An array that exists keeps its elements when the heap grows. *)
Lemma arr_prefix w w' a :
  arrs w `prefix_of` arrs w' -> a < length (arrs w) -> arr w' a = arr w a.
Proof.
  intros [k Hk] Ha. unfold arr. rewrite Hk. now rewrite lookup_app_l.
Qed.

(** One iteration of the loop of [updateListeners]: the array handed over is
    new, the call is recorded, and a list component gets one more new array,
    the filtered one. Records, listeners and the store's array stay. *)
Lemma notify_step w l :
  let w' := notify w l in
  objs w' = objs w
  /\ listeners w' = listeners w
  /\ projects w' = projects w
  /\ calls w' = calls w ++ [(l, length (arrs w))]
  /\ match l with
     | ListListener c =>
         match lists w !! c with
         | Some pl =>
             arrs w' = arrs w ++ [arr w (projects w);
                                  List.filter (relevantRef w (projectType pl))
                                              (arr w (projects w))]
             /\ lists w' = <[c := mkProjectList (projectType pl)
                                                (S (length (arrs w)))]> (lists w)
         | None => arrs w' = arrs w ++ [arr w (projects w)] /\ lists w' = lists w
         end
     | Callback _ => arrs w' = arrs w ++ [arr w (projects w)] /\ lists w' = lists w
     end.
Proof.
  destruct l as [c|tag]; unfold notify, slice, invoke, listListener; cbn.
  - destruct (lists w !! c) as [pl|] eqn:E; cbn; repeat split; try reflexivity.
    + unfold arr, relevantRef. cbn.
      rewrite list_lookup_middle by reflexivity. cbn.
      rewrite <- app_assoc. reflexivity.
    + rewrite length_app. cbn. repeat f_equal. lia.
  - repeat split; reflexivity.
Qed.

Lemma elem_of_snoc_ne {A} (x y : A) (xs : list A) :
  x ∈ xs ++ [y] -> x <> y -> x ∈ xs.
Proof.
  intros H Hne. apply elem_of_app in H as [H|H]; [done|].
  apply list_elem_of_singleton in H. contradiction.
Qed.

Lemma not_elem_of_snoc {A} (x y : A) (xs : list A) :
  x ∉ xs ++ [y] -> x ∉ xs.
Proof. intros H Hin. apply H, elem_of_app. now left. Qed.

Lemma relevantRef_objs w w' (ty : ListType) :
  objs w' = objs w -> relevantRef w' ty = relevantRef w ty.
Proof. intros H. unfold relevantRef. now rewrite H. Qed.

(** The loop of [updateListeners] over the listeners [ls], from any state
    whose store array exists. *)
Lemma notify_loop ls : forall w,
  projects w < length (arrs w) ->
  let w' := fold_left notify ls w in
  objs w' = objs w
  /\ listeners w' = listeners w
  /\ projects w' = projects w
  /\ arrs w `prefix_of` arrs w'
  /\ (exists snaps : list aref,
        calls w' = calls w ++ zip ls snaps
        /\ length snaps = length ls
        /\ NoDup snaps
        /\ Forall (fun a => length (arrs w) <= a < length (arrs w')
                            /\ arrs w' !! a = Some (arr w (projects w))) snaps)
  /\ length (lists w') = length (lists w)
  /\ (forall c pl', lists w' !! c = Some pl' ->
        exists pl, lists w !! c = Some pl
          /\ projectType pl' = projectType pl
          /\ (ListListener c ∈ ls ->
                length (arrs w) <= assignedProjects pl'
                /\ arrs w' !! assignedProjects pl'
                   = Some (List.filter (relevantRef w (projectType pl))
                                       (arr w (projects w))))
          /\ (ListListener c ∉ ls -> pl' = pl)).
Proof.
  induction ls as [|l ls IH] using rev_ind; intros w Hp; cbv zeta.
  - cbn. repeat split; try reflexivity.
    + exists []. cbn. rewrite app_nil_r. repeat split; constructor.
    + intros c pl' Hc. exists pl'. repeat split; try done.
      all: match goal with H : _ ∈ [] |- _ => inversion H end.
  - rewrite fold_left_app.
    change (fold_left notify [l] (fold_left notify ls w))
      with (notify (fold_left notify ls w) l).
    specialize (IH w Hp). cbv zeta in IH.
    set (w1 := fold_left notify ls w) in *.
    destruct IH as (Hobj & Hlis & Hprj & Hpre & (snaps & Hcalls & Hlen & Hnd & Hall)
                    & Hll & Hlists).
    pose proof (notify_step w1 l) as Hstep. cbv zeta in Hstep.
    set (w2 := notify w1 l) in *.
    destruct Hstep as (Hobj2 & Hlis2 & Hprj2 & Hcalls2 & Hkind).
    assert (Hlen1 : length (arrs w) <= length (arrs w1))
      by (now apply prefix_length).
    assert (Harr1 : arr w1 (projects w1) = arr w (projects w))
      by (rewrite Hprj; now apply arr_prefix).
    rewrite Harr1 in Hkind.
    assert (Hext : exists ext, arrs w2 = arrs w1 ++ arr w (projects w) :: ext
                    /\ length ext <= 1).
    { destruct l as [c|tag]; [destruct (lists w1 !! c)|]; destruct Hkind as [-> _];
        eexists; split; try reflexivity; cbn; lia. }
    destruct Hext as (ext & Harrs2 & Hext).
    assert (Hpre2 : arrs w1 `prefix_of` arrs w2) by (rewrite Harrs2; now eexists).
    repeat split.
    + congruence.
    + congruence.
    + congruence.
    + now transitivity (arrs w1).
    + exists (snaps ++ [length (arrs w1)]). repeat split.
      * rewrite Hcalls2, Hcalls, <- app_assoc. f_equal.
        rewrite zip_with_app by (now symmetry). reflexivity.
      * rewrite !length_app. cbn. lia.
      * apply NoDup_app. repeat split; [done| |apply NoDup_singleton].
        intros a Ha Ha'. apply list_elem_of_singleton in Ha'. subst a.
        rewrite Forall_forall in Hall. destruct (Hall _ Ha) as [[_ Hlt] _]. lia.
      * apply Forall_app. split.
        -- eapply Forall_impl; [exact Hall|]. intros a [Hr Hl]. split.
           ++ apply prefix_length in Hpre2. lia.
           ++ eapply prefix_lookup_Some; eauto.
        -- constructor; [|constructor]. split.
           ++ rewrite Harrs2, length_app. cbn. lia.
           ++ rewrite Harrs2. now rewrite list_lookup_middle.
    + destruct l as [c|tag]; [destruct (lists w1 !! c)|]; destruct Hkind as [_ ->];
        rewrite ?length_insert; exact Hll.
    + intros c pl' Hc.
      assert (Hold : lists w1 !! c = Some pl' -> ListListener c <> l ->
                     exists pl, lists w !! c = Some pl
                       /\ projectType pl' = projectType pl
                       /\ (ListListener c ∈ ls ++ [l] ->
                             length (arrs w) <= assignedProjects pl'
                             /\ arrs w2 !! assignedProjects pl'
                                = Some (List.filter (relevantRef w (projectType pl))
                                                    (arr w (projects w))))
                       /\ (ListListener c ∉ ls ++ [l] -> pl' = pl)).
      { intros Hc1 Hne.
        destruct (Hlists c pl' Hc1) as (pl & Hpl & Hty & Hin & Hout).
        exists pl. split; [done|]. split; [done|]. split.
        - intros Hel. apply elem_of_snoc_ne in Hel; [|done].
          destruct (Hin Hel) as [Hge Hlk]. split; [done|].
          eapply prefix_lookup_Some; eauto.
        - intros Hn. apply Hout. eapply not_elem_of_snoc; eauto. }
      destruct l as [c0|tag].
      * destruct (lists w1 !! c0) as [pl0|] eqn:E0; destruct Hkind as [Harrs Hl2];
          rewrite Hl2 in Hc.
        -- destruct (decide (c0 = c)) as [->|Hne].
           ++ rewrite list_lookup_insert_eq in Hc by (eapply lookup_lt_Some; eauto).
              injection Hc as <-. cbn [projectType assignedProjects].
              destruct (Hlists c pl0 E0) as (pl & Hpl & Hty & _ & _).
              exists pl. split; [done|]. split; [done|]. split.
              ** intros _. split; [lia|].
                 rewrite Harrs, (relevantRef_objs w w1), Hty by done.
                 rewrite lookup_app_r by lia.
                 replace (S (length (arrs w1)) - length (arrs w1)) with 1 by lia.
                 reflexivity.
              ** intros Hn. exfalso. apply Hn, elem_of_app. right.
                 now apply list_elem_of_singleton.
           ++ rewrite list_lookup_insert_ne in Hc by done.
              apply Hold; congruence.
        -- apply Hold; congruence.
      * destruct Hkind as [Harrs Hl2]. rewrite Hl2 in Hc.
        apply Hold; congruence.
Qed.

End StoreHeap.

(* ===================================================================== *)
(** ** The store: notification and the invariant *)
(* ===================================================================== *)

Section StoreInvariant.

Import Store.
Local Open Scope nat_scope.

Implicit Types (w : World) (l : Listener) (ls : list Listener).
Implicit Types (a : aref) (r : ref) (prj : Project).


(** [updateListeners] from a well-formed state: the store is as before,
    the heap has grown, and the trace has one call per listener. *)
Lemma updateListeners_spec w :
  wf w ->
  let w' := updateListeners w in
  objs w' = objs w
  /\ listeners w' = listeners w
  /\ projects w' = projects w
  /\ arr w' (projects w') = arr w (projects w)
  /\ sequence w' = sequence w
  /\ arrs w `prefix_of` arrs w'
  /\ notified w w'.
Proof.
  intros (Hp & Hrefs & Hnd & Hcalls). cbv zeta.
  destruct (notify_loop (listeners w) w Hp)
    as (Hobj & Hlis & Hprj & Hpre & (snaps & Hc & Hlen & Hsnd & Hall) & _ & _).
  fold (updateListeners w) in *. set (w' := updateListeners w) in *.
  assert (Harr : arr w' (projects w') = arr w (projects w))
    by (rewrite Hprj; now apply arr_prefix).
  repeat split; try done.
  - unfold sequence, records. now rewrite Hobj, Harr.
  - exists snaps. repeat split; try done.
    eapply Forall_impl; [exact Hall|]. intros a [Hr Hl]. repeat split; try lia.
    unfold arr at 1. rewrite Hl. cbn. now rewrite Harr.
Qed.

Lemma projects_updateListeners w :
  wf w -> projects (updateListeners w) = projects w.
Proof. intros Hwf. apply (updateListeners_spec w Hwf). Qed.


Lemma wf_init : wf init.
Proof. repeat split; cbn; try lia; constructor. Qed.

Lemma wf_updateListeners w : wf w -> wf (updateListeners w).
Proof.
  intros Hwf. pose proof Hwf as (Hp & Hrefs & Hnd & Hcalls).
  destruct (updateListeners_spec w Hwf)
    as (Hobj & Hlis & Hprj & Harr & _ & Hpre & (snaps & Hc & Hlen & _ & Hall)).
  repeat split.
  - rewrite Hprj. apply prefix_length in Hpre. lia.
  - now rewrite Harr, Hobj.
  - now rewrite Harr.
  - rewrite Hc, Hprj. apply Forall_app. split; [done|].
    apply Forall_forall. intros [l a] Hin. cbn.
    apply elem_of_zip_r in Hin.
    rewrite Forall_forall in Hall. destruct (Hall a Hin) as (? & ? & _).
    lia.
Qed.

Lemma arr_pushProject w prj :
  projects w < length (arrs w) ->
  arr (pushProject prj w) (projects w) = arr w (projects w) ++ [length (objs w)].
Proof.
  intros Hp. destruct (lookup_lt_is_Some_2 _ _ Hp) as [xs Hxs].
  unfold arr, pushProject. cbn.
  rewrite list_lookup_alter_eq. now rewrite !Hxs.
Qed.

Lemma wf_pushProject w prj : wf w -> wf (pushProject prj w).
Proof.
  intros (Hp & Hrefs & Hnd & Hcalls).
  assert (Harr := arr_pushProject w prj Hp).
  change (projects w) with (projects (pushProject prj w)) in Harr at 1.
  repeat split.
  - cbn. now rewrite length_alter.
  - rewrite Harr. cbn. rewrite length_app. cbn. apply Forall_app. split.
    + eapply Forall_impl; [exact Hrefs|]. cbn. lia.
    + repeat constructor. lia.
  - rewrite Harr. apply NoDup_app. repeat split; [done| |apply NoDup_singleton].
    intros r Hr Hr'. apply list_elem_of_singleton in Hr'. subst r.
    rewrite Forall_forall in Hrefs. apply Hrefs in Hr. lia.
  - exact Hcalls.
Qed.

(** Writing record fields leaves the shape of the heap alone. *)
Lemma wf_set_objs w (os : list Project) :
  length os = length (objs w) -> wf w -> wf (set_objs os w).
Proof.
  intros Hlen (Hp & Hrefs & Hnd & Hcalls). repeat split; try done.
  unfold arr in *. cbn in *. now rewrite Hlen.
Qed.

Lemma findProject_Some w projectId r :
  findProject projectId w = Some r <-> firstWithId w projectId r.
Proof.
  unfold findProject, firstWithId.
  generalize (arr w (projects w)) as xs. intros xs. split.
  - induction xs as [|x xs IH]; cbn; [discriminate|].
    destruct (objs w !! x) as [p|] eqn:E.
    + destruct (bool_decide (id p = projectId)) eqn:B.
      * intros [= ->]. apply bool_decide_eq_true in B.
        exists [], xs, p. repeat split; try done. intros ? ? Hin. inversion Hin.
      * intros H. destruct (IH H) as (pre & post & prj & -> & Hr & Hid & Hpre).
        exists (x :: pre), post, prj. repeat split; try done.
        intros r' prj' Hin Hl. apply elem_of_cons in Hin as [->|Hin]; [|eauto].
        apply bool_decide_eq_false in B. congruence.
    + intros H. destruct (IH H) as (pre & post & prj & -> & Hr & Hid & Hpre).
      exists (x :: pre), post, prj. repeat split; try done.
      intros r' prj' Hin Hl. apply elem_of_cons in Hin as [->|Hin]; [|eauto].
      congruence.
  - intros (pre & post & prj & -> & Hr & Hid & Hpre).
    induction pre as [|x pre IH]; cbn.
    + rewrite Hr. now rewrite bool_decide_eq_true_2.
    + destruct (objs w !! x) as [p|] eqn:E.
      * rewrite bool_decide_eq_false_2.
        -- apply IH. intros r' prj' Hin. apply Hpre. now right.
        -- eapply Hpre; [left|exact E].
      * apply IH. intros r' prj' Hin. apply Hpre. now right.
Qed.


Lemma wf_moveProject w projectId newStatus :
  wf w -> wf (moveProject projectId newStatus w).
Proof.
  intros Hwf. unfold moveProject.
  destruct (findProject projectId w) as [r|]; [|done].
  destruct (objs w !! r) as [prj|]; [|done].
  case_bool_decide; [|done].
  apply wf_updateListeners, wf_set_objs; [|done].
  apply length_alter.
Qed.

Lemma wf_exec o w : wf w -> wf (exec o w).
Proof.
  intros Hwf. destruct o as [l|rnd t d p| |pid st]; cbn [exec].
  - exact Hwf.
  - unfold addProject. apply wf_updateListeners. apply wf_pushProject, Hwf.
  - apply wf_updateListeners, Hwf.
  - apply wf_moveProject, Hwf.
Qed.

Lemma wf_newProjectList ty w : wf w -> wf (newProjectList ty w).
Proof.
  intros (Hp & Hrefs & Hnd & Hcalls).
  assert (Harr : arr (newProjectList ty w) (projects w) = arr w (projects w)).
  { unfold arr, newProjectList. cbn. rewrite <- app_assoc.
    now rewrite lookup_app_l. }
  repeat split.
  - cbn. rewrite !length_app. cbn. lia.
  - change (projects (newProjectList ty w)) with (projects w). now rewrite Harr.
  - change (projects (newProjectList ty w)) with (projects w). now rewrite Harr.
  - exact Hcalls.
Qed.

Lemma wf_holderStep w l a op :
  wf w -> (l, a) ∈ calls w -> wf (holderStep a op w).
Proof.
  intros Hwf Hin. pose proof Hwf as (Hp & Hrefs & Hnd & Hall).
  pose proof Hall as Hcalls.
  rewrite Forall_forall in Hcalls. specialize (Hcalls _ Hin). cbn in Hcalls.
  destruct op as [f|i f]; cbn.
  - assert (Harr : arr (set_arrs (alter f a (arrs w)) w) (projects w)
                   = arr w (projects w)).
    { unfold arr. cbn. now rewrite list_lookup_alter_ne. }
    repeat split.
    + cbn. now rewrite length_alter.
    + change (projects (set_arrs _ w)) with (projects w). now rewrite Harr.
    + change (projects (set_arrs _ w)) with (projects w). now rewrite Harr.
    + exact Hall.
  - destruct (arr w a !! i) as [r|]; [|done].
    apply wf_set_objs; [|done]. apply length_alter.
Qed.

(** Every state of a run satisfies the invariant. *)
Lemma Reachable_wf w : Reachable w -> wf w.
Proof.
  induction 1; eauto using wf_init, wf_exec, wf_newProjectList, wf_holderStep.
Qed.

End StoreInvariant.

(* ===================================================================== *)
(** ** The store: notification, creation and moves *)
(* ===================================================================== *)

Section StoreProperties.

Import Store.
Local Open Scope nat_scope.

Implicit Types (w : World) (l : Listener) (a : aref) (r : ref) (prj : Project).

Lemma Reachable_w_one : Reachable w_one.
Proof.
  exact (reach_exec (OpAddProject 0.5%float (js "A") (js "desc!!") 3%float) _
           (reach_exec (OpAddListener (Callback 0)) _ reach_init)).
Qed.

(** ** Creation *)

Lemma notified_from w0 w1 w' :
  calls w0 = calls w1 -> listeners w0 = listeners w1 ->
  length (arrs w0) = length (arrs w1) ->
  notified w1 w' -> notified w0 w'.
Proof.
  intros Hc Hl Ha (snaps & H1 & H2 & H3 & H4). exists snaps.
  rewrite Hc, Hl, Ha. done.
Qed.

Lemma records_grow w prj (xs : list ref) :
  Forall (fun r => r < length (objs w)) xs ->
  omap (fun r : ref => (objs w ++ [prj]) !! r) xs
  = omap (fun r : ref => objs w !! r) xs.
Proof.
  intros H. apply list_omap_ext, Forall_Forall2_diag.
  eapply Forall_impl; [exact H|]. cbn. intros r Hr. now apply lookup_app_l.
Qed.

Lemma sequence_pushProject w prj :
  wf w -> sequence (pushProject prj w) = sequence w ++ [prj].
Proof.
  intros (Hp & Hrefs & _). unfold sequence, records.
  change (projects (pushProject prj w)) with (projects w).
  rewrite arr_pushProject by done.
  change (objs (pushProject prj w)) with (objs w ++ [prj]).
  rewrite omap_app, records_grow by done. f_equal.
  cbn. now rewrite list_lookup_middle.
Qed.

(** What [addProject] does to the heap and to the trace. *)
Lemma addProject_heap w (rnd : JsNumber.number) (title desc : jsstring)
    (people : JsNumber.number) :
  wf w ->
  let newProject := mkProject (JsNumber.toString rnd) title desc people Active in
  let w' := addProject rnd title desc people w in
  sequence w' = sequence w ++ [newProject]
  /\ projects w' = projects w
  /\ arr w' (projects w') = arr w (projects w) ++ [length (objs w)]
  /\ objs w' = objs w ++ [newProject]
  /\ listeners w' = listeners w
  /\ notified w w'.
Proof.
  intros Hwf. cbv zeta. set (prj := mkProject _ _ _ _ _).
  pose proof (wf_pushProject w prj Hwf) as Hwf1.
  destruct (updateListeners_spec _ Hwf1)
    as (Hobj & Hlis & Hprj & Harr & Hseq & Hpre & Hnot).
  change (updateListeners (pushProject prj w))
    with (addProject rnd title desc people w) in *.
  set (w' := addProject rnd title desc people w) in *.
  split; [rewrite Hseq; now apply sequence_pushProject|].
  split; [exact Hprj|]. split; [|split; [exact Hobj|split; [exact Hlis|]]].
  - rewrite Harr. change (projects (pushProject prj w)) with (projects w).
    apply arr_pushProject, (proj1 Hwf).
  - eapply notified_from; [| | |exact Hnot]; try reflexivity.
    cbn. now rewrite length_alter.
Qed.

(** C1, as the code has it. [addProject] allocates one record with the
    given fields, status Active and the decimal form of the random draw as
    its id, appends it to the end of the store's array, leaves the records
    that were there as they are, and then runs [updateListeners] once: each
    listener is called once, in order, with a copy of the new array. The id
    is not checked against the ids in use: it is new, and the ids stay
    pairwise distinct, when the draw's string is not among them. *)
Theorem addProject_appends (w : World) (rnd : JsNumber.number)
    (title desc : jsstring) (people : JsNumber.number) (Hwf : wf w) :
  let newProject := mkProject (JsNumber.toString rnd) title desc people Active in
  let w' := addProject rnd title desc people w in
  sequence w' = sequence w ++ [newProject]
  /\ arr w' (projects w') = arr w (projects w) ++ [length (objs w)]
  /\ objs w' = objs w ++ [newProject]
  /\ (forall r prj, objs w !! r = Some prj -> objs w' !! r = Some prj)
  /\ w' = updateListeners (pushProject newProject w)
  /\ notified w w'
  /\ (JsNumber.toString rnd ∉ ids w -> NoDup (ids w) -> NoDup (ids w')).
Proof.
  cbv zeta.
  destruct (addProject_heap w rnd title desc people Hwf)
    as (Hs & _ & Harr & Hobj & _ & Hnot).
  split; [exact Hs|]. split; [exact Harr|]. split; [exact Hobj|].
  split; [|split; [reflexivity|split; [exact Hnot|]]].
  - intros r p Hr. rewrite Hobj. now apply lookup_app_l_Some.
  - intros Hfresh Hnd. unfold ids in *. rewrite Hs, map_app. cbn.
    apply NoDup_app. repeat split; [done| |apply NoDup_singleton].
    intros x Hx Hx'. apply list_elem_of_singleton in Hx'. now subst x.
Qed.

Lemma addProject_appends_witness :
  wf w_one
  /\ (JsNumber.toString 0.25%float ∉ ids w_one)
  /\ NoDup (ids w_one)
  /\ NoDup (ids (addProject 0.25%float (js "B") (js "other") 2%float w_one)).
Proof.
  pose proof (Reachable_wf _ Reachable_w_one) as Hwf.
  assert (Hfresh : JsNumber.toString 0.25%float ∉ ids w_one).
  { vm_compute. intros H. apply list_elem_of_In in H.
    destruct H as [H|[]]. discriminate H. }
  assert (Hnd : NoDup (ids w_one)).
  { vm_compute. apply NoDup_singleton. }
  split; [exact Hwf|]. split; [exact Hfresh|]. split; [exact Hnd|].
  exact (proj2 (proj2 (proj2 (proj2 (proj2 (proj2
           (addProject_appends w_one 0.25%float (js "B") (js "other") 2%float Hwf))))))
           Hfresh Hnd).
Defined.

(** C1 as stated fails on the freshness of the id: the id is the string of
    [Math.random()], and a draw that repeats gives an id already in the
    store. *)
Lemma addProject_id_collision :
  Reachable w_one
  /\ ids w_one = [js "0.5"]
  /\ ids (addProject 0.5%float (js "B") (js "other") 2%float w_one)
     = [js "0.5"; js "0.5"]
  /\ ~ NoDup (ids (addProject 0.5%float (js "B") (js "other") 2%float w_one)).
Proof.
  split; [exact Reachable_w_one|].
  assert (H : ids (addProject 0.5%float (js "B") (js "other") 2%float w_one)
              = [js "0.5"; js "0.5"]) by (vm_compute; reflexivity).
  split; [vm_compute; reflexivity|]. split; [exact H|].
  rewrite H. intros Hnd. apply NoDup_cons in Hnd as [Hn _].
  apply Hn. left.
Qed.

(** ** Moves *)

Lemma records_alter w (f : Project -> Project) r (xs : list ref) :
  r ∉ xs ->
  omap (fun x : ref => alter f r (objs w) !! x) xs
  = omap (fun x : ref => objs w !! x) xs.
Proof.
  intros H. apply list_omap_ext, Forall_Forall2_diag, Forall_forall.
  intros x Hx. apply list_lookup_alter_ne. congruence.
Qed.


Lemma moveProject_same w projectId newStatus r prj :
  firstWithId w projectId r -> objs w !! r = Some prj ->
  status prj = newStatus ->
  moveProject projectId newStatus w = w.
Proof.
  intros Hfirst Hr Hs. apply findProject_Some in Hfirst.
  unfold moveProject. rewrite Hfirst, Hr.
  rewrite bool_decide_eq_false_2; [done|]. tauto.
Qed.

Lemma moveProject_change w projectId newStatus r prj :
  wf w -> firstWithId w projectId r -> objs w !! r = Some prj ->
  status prj <> newStatus ->
  let w' := moveProject projectId newStatus w in
  w' = updateListeners (set_objs (alter (setStatus newStatus) r (objs w)) w)
  /\ notified w w'
  /\ objs w' = alter (setStatus newStatus) r (objs w)
  /\ projects w' = projects w
  /\ listeners w' = listeners w
  /\ arr w' (projects w') = arr w (projects w)
  /\ exists before after,
       sequence w = before ++ prj :: after
       /\ sequence w' = before ++ setStatus newStatus prj :: after.
Proof.
  intros Hwf Hfirst Hr Hs. cbv zeta. pose proof Hfirst as Hfind.
  apply findProject_Some in Hfind.
  unfold moveProject. rewrite Hfind, Hr.
  rewrite bool_decide_eq_true_2 by done.
  set (w1 := set_objs (alter (setStatus newStatus) r (objs w)) w).
  assert (Hwf1 : wf w1) by (apply wf_set_objs; [apply length_alter|done]).
  destruct (updateListeners_spec _ Hwf1)
    as (Hobj & Hlis & Hprj & Harr & Hseq & Hpre & Hnot).
  split; [reflexivity|].
  split; [eapply notified_from; [| | |exact Hnot]; reflexivity|].
  split; [exact Hobj|]. split; [exact Hprj|]. split; [exact Hlis|].
  split; [exact Harr|].
  - destruct Hfirst as (pre & post & prj0 & Hsplit & Hr0 & _ & _).
    destruct Hwf as (_ & _ & Hnd & _). rewrite Hsplit in Hnd.
    apply NoDup_app in Hnd as (_ & Hpre' & Hnd).
    apply NoDup_cons in Hnd as [Hpost _].
    exists (omap (fun x : ref => objs w !! x) pre),
           (omap (fun x : ref => objs w !! x) post).
    rewrite Hseq. unfold sequence, records.
    change (arr w1 (projects w1)) with (arr w (projects w)).
    rewrite Hsplit, !omap_app. cbn.
    rewrite list_lookup_alter_eq, Hr. cbn.
    rewrite !records_alter; [done|done|].
    intros Hin. apply (Hpre' r Hin). left.
Qed.



(** ** The frame of the store operations *)

Lemma sameButStatus_refl prj : sameButStatus prj prj.
Proof. repeat split. Qed.

Lemma sameButStatus_setStatus st prj : sameButStatus prj (setStatus st prj).
Proof. repeat split. Qed.

(** A move either does nothing or overwrites the status of the first
    record with the id. *)
Lemma moveProject_cases w projectId newStatus :
  wf w ->
  moveProject projectId newStatus w = w
  \/ exists r prj,
       firstWithId w projectId r /\ objs w !! r = Some prj
       /\ status prj <> newStatus
       /\ objs (moveProject projectId newStatus w)
          = alter (setStatus newStatus) r (objs w).
Proof.
  intros Hwf. destruct (findProject projectId w) as [r|] eqn:Hfind.
  - pose proof Hfind as Hfirst. apply findProject_Some in Hfirst.
    pose proof Hfirst as (_ & _ & prj & _ & Hr & _).
    destruct (decide (status prj = newStatus)) as [Heq|Hne].
    + left. now apply (moveProject_same w _ _ r prj).
    + right. exists r, prj. repeat split; try done.
      apply (moveProject_change w projectId newStatus r prj Hwf Hfirst Hr Hne).
  - left. unfold moveProject. now rewrite Hfind.
Qed.

(** C7. Through any operation of the store ([addListener], [addProject],
    [updateListeners], [moveProject]) the records that are in the store stay
    in it, in their order: the array before is a prefix of the array after.
    A record keeps its id, title, description and people; its status changes
    only in a [moveProject], and then to the status asked for. A
    [moveProject] keeps the array as it is, so the length and the order of
    the sequence, and allocates no record. An [addProject] leaves every
    existing record as it is. *)
Theorem store_frame (o : Op) (w : World) (Hwf : wf w) :
  let w' := exec o w in
  projects w' = projects w
  /\ arr w (projects w) `prefix_of` arr w' (projects w')
  /\ (forall r prj, objs w !! r = Some prj ->
        exists prj', objs w' !! r = Some prj'
          /\ sameButStatus prj prj'
          /\ (status prj' <> status prj ->
                exists projectId, o = OpMoveProject projectId (status prj')))
  /\ (forall projectId newStatus, o = OpMoveProject projectId newStatus ->
        arr w' (projects w') = arr w (projects w)
        /\ length (objs w') = length (objs w)
        /\ Forall2 sameButStatus (sequence w) (sequence w'))
  /\ (forall rnd t d p, o = OpAddProject rnd t d p ->
        forall r prj, objs w !! r = Some prj -> objs w' !! r = Some prj).
Proof.
  cbv zeta.
  assert (Hsame : forall w', projects w' = projects w ->
            arr w' (projects w') = arr w (projects w) -> objs w' = objs w ->
            projects w' = projects w
            /\ arr w (projects w) `prefix_of` arr w' (projects w')
            /\ (forall r prj, objs w !! r = Some prj ->
                  exists prj', objs w' !! r = Some prj'
                    /\ sameButStatus prj prj'
                    /\ (status prj' <> status prj ->
                          exists projectId, o = OpMoveProject projectId (status prj')))).
  { intros w' Hp Ha Ho. rewrite Ha, Ho. repeat split; try done.
    intros r prj Hr. exists prj. split; [done|]. split; [apply sameButStatus_refl|].
    congruence. }
  destruct o as [l|rnd t d p| |pid st]; cbn [exec].
  - destruct (Hsame (addListener l w)) as (H1 & H2 & H3); try reflexivity.
    repeat split; try done.
  - destruct (addProject_heap w rnd t d p Hwf) as (_ & Hp & Harr & Hobj & _).
    assert (Hold : forall r prj, objs w !! r = Some prj ->
                     objs (addProject rnd t d p w) !! r = Some prj).
    { intros r prj Hr. rewrite Hobj. now apply lookup_app_l_Some. }
    split; [exact Hp|]. split; [rewrite Harr; now apply prefix_app_r|].
    split; [|split; [discriminate|]].
    + intros r prj Hr. exists prj. split; [now apply Hold|].
      split; [apply sameButStatus_refl|]. congruence.
    + intros ? ? ? ? _. exact Hold.
  - destruct (updateListeners_spec w Hwf) as (Hobj & _ & Hp & Harr & _).
    destruct (Hsame (updateListeners w)) as (H1 & H2 & H3); done.
  - assert (Hp : projects (moveProject pid st w) = projects w).
    { unfold moveProject. destruct (findProject pid w); [|done].
      destruct (objs w !! n); [|done]. case_bool_decide; [|done].
      rewrite projects_updateListeners; [done|].
      apply wf_set_objs; [apply length_alter|done]. }
    destruct (moveProject_cases w pid st Hwf) as [Heq|(r & prj & Hfirst & Hr & Hne & Hobj)].
    + rewrite Heq. destruct (Hsame w) as (H1 & H2 & H3); try done.
      split; [done|]. split; [done|]. split; [done|]. split; [|discriminate].
      intros _ _ _. repeat split. apply Forall_Forall2_diag, Forall_forall.
      intros ? _. apply sameButStatus_refl.
    + destruct (moveProject_change w pid st r prj Hwf Hfirst Hr Hne)
        as (_ & _ & _ & _ & _ & Harr & (before & after & Hs & Hs')).
      assert (Hat : objs (moveProject pid st w) !! r = Some (setStatus st prj))
        by (now rewrite Hobj, list_lookup_alter_eq, Hr).
      assert (Hother : forall r', r' <> r ->
                objs (moveProject pid st w) !! r' = objs w !! r')
        by (intros r' Hr'; rewrite Hobj; now apply list_lookup_alter_ne).
      split; [exact Hp|]. split; [now rewrite Harr|].
      split; [|split; [|discriminate]].
      * intros r0 prj0 Hr0. destruct (decide (r0 = r)) as [->|Hne0].
        -- exists (setStatus st prj). split; [done|].
           assert (prj0 = prj) as -> by congruence.
           split; [apply sameButStatus_setStatus|]. intros _. now exists pid.
        -- exists prj0. split; [now rewrite Hother|].
           split; [apply sameButStatus_refl|]. congruence.
      * intros ? ? _. split; [exact Harr|]. split.
        -- rewrite Hobj. apply length_alter.
        -- rewrite Hs, Hs'. apply Forall2_app; [|constructor].
           ++ apply Forall_Forall2_diag, Forall_forall.
              intros ? _. apply sameButStatus_refl.
           ++ apply sameButStatus_setStatus.
           ++ apply Forall_Forall2_diag, Forall_forall.
              intros ? _. apply sameButStatus_refl.
Qed.

Lemma store_frame_witness :
  wf w_one
  /\ arr w_one (projects w_one)
     `prefix_of` arr (exec (OpMoveProject (js "0.5") Finished) w_one)
                     (projects (exec (OpMoveProject (js "0.5") Finished) w_one)).
Proof.
  pose proof (Reachable_wf _ Reachable_w_one) as Hwf.
  exact (conj Hwf (proj1 (proj2
           (store_frame (OpMoveProject (js "0.5") Finished) w_one Hwf)))).
Defined.

(** A drop on a list is a move to the category of the list. *)
Lemma dropHandler_moves w c pl projectId :
  lists w !! c = Some pl ->
  dropHandler c projectId w
  = moveProject projectId
      (match projectType pl with active => Active | finished => Finished end) w.
Proof. intros H. unfold dropHandler. now rewrite H. Qed.

(** ** The round trip of a move *)

Lemma firstWithId_transport w w' projectId r :
  arr w' (projects w') = arr w (projects w) ->
  (forall x prj', objs w' !! x = Some prj' ->
                  exists prj, objs w !! x = Some prj /\ id prj = id prj') ->
  (exists prj', objs w' !! r = Some prj' /\ id prj' = projectId) ->
  firstWithId w projectId r -> firstWithId w' projectId r.
Proof.
  intros Harr Hids (prj' & Hr' & Hid') (pre & post & prj & Hsplit & Hr & Hid & Hpre).
  exists pre, post, prj'. rewrite Harr. repeat split; try done.
  intros x q Hx Hq. destruct (Hids x q Hq) as (q0 & Hq0 & <-). eauto.
Qed.

(** With pairwise distinct ids a record is the first with its id. *)
Lemma firstWithId_unique w r prj :
  NoDup (ids w) -> r ∈ arr w (projects w) -> objs w !! r = Some prj ->
  firstWithId w (id prj) r.
Proof.
  unfold ids, sequence, records. intros Hnd Hin Hr.
  apply list_elem_of_split in Hin as (pre & post & Hsplit).
  exists pre, post, prj. repeat split; try done.
  intros x q Hx Hq Heq. rewrite Hsplit, omap_app, map_app in Hnd. cbn in Hnd.
  rewrite Hr in Hnd. cbn in Hnd.
  apply NoDup_app in Hnd as (_ & Hdis & _).
  apply (Hdis (id q)).
  - apply list_elem_of_In, in_map_iff. exists q. split; [done|].
    apply list_elem_of_In, list_elem_of_omap. eauto.
  - rewrite Heq. left.
Qed.

(** C9, as the code has it. When the first record with the id is Active,
    which it is for the id of any Active record as long as the ids are
    pairwise distinct, [moveProject(id, Finished)] followed by
    [moveProject(id, Active)] leaves every record, the store's array and so
    the sequence exactly as they were, and each of the two calls runs
    [updateListeners] once. *)
Theorem move_round_trip (w : World) (projectId : jsstring) (r : ref)
    (prj : Project) (Hwf : wf w)
    (Hr : objs w !! r = Some prj) (Hid : id prj = projectId)
    (Hact : status prj = Active)
    (Hfirst : firstWithId w projectId r
              \/ (NoDup (ids w) /\ r ∈ arr w (projects w))) :
  let w1 := moveProject projectId Finished w in
  let w2 := moveProject projectId Active w1 in
  objs w2 = objs w
  /\ arr w2 (projects w2) = arr w (projects w)
  /\ sequence w2 = sequence w
  /\ notified w w1
  /\ notified w1 w2
  /\ listeners w1 = listeners w.
Proof.
  cbv zeta.
  assert (Hf : firstWithId w projectId r).
  { destruct Hfirst as [H|[Hnd Hin]]; [done|].
    rewrite <- Hid. now apply firstWithId_unique. }
  clear Hfirst.
  assert (Hne : status prj <> Finished) by (rewrite Hact; discriminate).
  destruct (moveProject_change w projectId Finished r prj Hwf Hf Hr Hne)
    as (Hw1 & Hnot1 & Hobj1 & _ & Hlis1 & Harr1 & _).
  set (w1 := moveProject projectId Finished w) in *.
  assert (Hwf1 : wf w1) by (apply wf_moveProject, Hwf).
  assert (Hat1 : objs w1 !! r = Some (setStatus Finished prj))
    by (now rewrite Hobj1, list_lookup_alter_eq, Hr).
  assert (Hother1 : forall r', r' <> r -> objs w1 !! r' = objs w !! r')
    by (intros r' Hr'; rewrite Hobj1; now apply list_lookup_alter_ne).
  assert (Hf1 : firstWithId w1 projectId r).
  { apply (firstWithId_transport w); try done.
    - intros x q Hq. destruct (decide (x = r)) as [->|Hx].
      + exists prj. split; [done|]. rewrite Hat1 in Hq. now injection Hq as <-.
      + exists q. split; [|done]. now rewrite <- Hother1.
    - exists (setStatus Finished prj). split; [done|]. exact Hid. }
  assert (Hne1 : status (setStatus Finished prj) <> Active) by discriminate.
  destruct (moveProject_change w1 projectId Active r _ Hwf1 Hf1 Hat1 Hne1)
    as (_ & Hnot2 & Hobj2' & _ & _ & Harr2 & _).
  set (w2 := moveProject projectId Active w1) in *.
  assert (Hobj2 : objs w2 = objs w).
  { rewrite Hobj2', Hobj1, list_alter_alter_eq.
    rewrite (list_alter_ext _ (fun x => x) _ (objs w) r); [|
      intros x Hx; assert (x = prj) as -> by congruence;
      destruct prj; cbn in *; now subst | done].
    now apply list_alter_id. }
  assert (Harr : arr w2 (projects w2) = arr w (projects w)) by congruence.
  repeat split; try done.
  unfold sequence, records. now rewrite Hobj2, Harr.
Qed.

Lemma move_round_trip_witness :
  wf w_one
  /\ firstWithId w_one (js "0.5") 0
  /\ sequence (moveProject (js "0.5") Active
                 (moveProject (js "0.5") Finished w_one))
     = sequence w_one.
Proof.
  pose proof (Reachable_wf _ Reachable_w_one) as Hwf.
  assert (Hfirst : firstWithId w_one (js "0.5") 0)
    by (apply findProject_Some; reflexivity).
  exact (conj Hwf (conj Hfirst (proj1 (proj2 (proj2
    (move_round_trip w_one (js "0.5") 0 _ Hwf eq_refl eq_refl eq_refl
       (or_introl Hfirst))))))).
Defined.

(** C9 as stated fails when two records share an id, which [addProject]
    allows when a draw repeats: the id is then the id of an
    Active record, the second one, while the two moves act on the first.
    The move to Finished finds the first record Finished already and
    notifies nobody; the move to Active changes it. *)
Lemma move_round_trip_needs_first :
  Reachable w_clash
  /\ List.map id (sequence w_clash) = [js "0.5"; js "0.5"]
  /\ List.map status (sequence w_clash) = [Finished; Active]
  /\ moveProject (js "0.5") Finished w_clash = w_clash
  /\ List.map status
       (sequence (moveProject (js "0.5") Active
                    (moveProject (js "0.5") Finished w_clash)))
     = [Active; Active].
Proof.
  split.
  - exact (reach_exec (OpMoveProject (js "0.5") Finished) _
             (reach_exec (OpAddProject 0.5%float (js "B") (js "other") 2%float) _
                Reachable_w_one)).
  - vm_compute. repeat split.
Qed.

(** ** The list components *)

Lemma records_filter w (ty : ListType) (xs : list ref) :
  omap (fun r : ref => objs w !! r) (List.filter (relevantRef w ty) xs)
  = List.filter (relevant ty) (omap (fun r : ref => objs w !! r) xs).
Proof.
  induction xs as [|x xs IH]; [done|]. cbn. unfold relevantRef at 1.
  destruct (objs w !! x) as [prj|] eqn:E; cbn; [|exact IH].
  destruct (relevant ty prj); cbn; rewrite ?E; cbn; now rewrite IH.
Qed.

(** After [updateListeners] a registered list component holds the records
    of the store's array that are of its category. *)
Lemma updateListeners_assigned w c pl :
  wf w -> lists w !! c = Some pl -> ListListener c ∈ listeners w ->
  let w' := updateListeners w in
  projectType <$> lists w' !! c = Some (projectType pl)
  /\ assigned w' c
     = List.filter (relevantRef w' (projectType pl)) (arr w' (projects w')).
Proof.
  intros Hwf Hc Hreg. cbv zeta.
  destruct (updateListeners_spec w Hwf) as (Hobj & _ & _ & Harr & _).
  destruct (notify_loop (listeners w) w (proj1 Hwf))
    as (_ & _ & _ & _ & _ & Hlen & Hlists).
  fold (updateListeners w) in *. set (w' := updateListeners w) in *.
  destruct (lists w' !! c) as [pl'|] eqn:E.
  - destruct (Hlists c pl' E) as (pl0 & Hpl0 & Hty & Hin & _).
    assert (pl0 = pl) as -> by congruence.
    destruct (Hin Hreg) as [_ Hlk].
    split; [cbn; now rewrite Hty|].
    unfold assigned. rewrite E. unfold arr at 1. rewrite Hlk. cbn.
    now rewrite Harr, (relevantRef_objs w w').
  - apply lookup_ge_None in E. apply lookup_lt_Some in Hc. lia.
Qed.


(** C8. Called with an array, the listener of a list component replaces
    the component's [assignedProjects] by a new array: the records of the
    array it was passed whose status is the component's category, in their
    order. So, with the active and the finished list registered: after
    [addProject] the new record is in the subset of the active list and not
    in the one of the finished list; after that record is moved to Finished
    it is in the subset of the finished list and no longer in the one of
    the active list. The move is by id, and it is that record's move as soon
    as the id is new when the record is created. *)
Theorem list_listener_filters (w : World) (ca cf : nat) (Hwf : wf w)
    (Hca : projectType <$> lists w !! ca = Some active)
    (Hcf : projectType <$> lists w !! cf = Some finished)
    (Hra : ListListener ca ∈ listeners w)
    (Hrf : ListListener cf ∈ listeners w) :
  (forall c pl items, lists w !! c = Some pl ->
     let w' := listListener c items w in
     projectType <$> lists w' !! c = Some (projectType pl)
     /\ assigned w' c = List.filter (relevantRef w (projectType pl)) (arr w items)
     /\ omap (fun r : ref => objs w' !! r) (assigned w' c)
        = List.filter (relevant (projectType pl)) (records w items))
  /\ (forall rnd t d p,
        let w1 := addProject rnd t d p w in
        let r := length (objs w) in
        let projectId := JsNumber.toString rnd in
        objs w1 !! r = Some (mkProject projectId t d p Active)
        /\ r ∈ assigned w1 ca
        /\ (r ∉ assigned w1 cf)
        /\ (projectId ∉ ids w -> firstWithId w1 projectId r)
        /\ (firstWithId w1 projectId r ->
              let w2 := moveProject projectId Finished w1 in
              status <$> objs w2 !! r = Some Finished
              /\ r ∈ assigned w2 cf
              /\ (r ∉ assigned w2 ca))).
Proof.
  split.
  - intros c pl items Hc. cbv zeta.
    assert (Hlk : lists (listListener c items w) !! c
                  = Some (mkProjectList (projectType pl) (length (arrs w)))).
    { unfold listListener. rewrite Hc. cbn.
      apply list_lookup_insert_eq. eapply lookup_lt_Some; eauto. }
    assert (Has : assigned (listListener c items w) c
                  = List.filter (relevantRef w (projectType pl)) (arr w items)).
    { unfold assigned. rewrite Hlk. cbn. unfold listListener. rewrite Hc.
      unfold arr at 1. cbn. now rewrite list_lookup_middle. }
    split; [now rewrite Hlk|]. split; [exact Has|].
    rewrite Has.
    replace (objs (listListener c items w)) with (objs w)
      by (unfold listListener; now rewrite Hc).
    apply records_filter.
  - intros rnd t d p. cbv zeta.
    set (prj := mkProject (JsNumber.toString rnd) t d p Active).
    destruct (addProject_heap w rnd t d p Hwf)
      as (Hseq & _ & Harr & Hobj & Hlis & _).
    assert (Hupd : addProject rnd t d p w = updateListeners (pushProject prj w))
      by reflexivity.
    fold prj in Hseq, Hobj.
    set (w1 := addProject rnd t d p w) in *.
    set (r := length (objs w)).
    assert (Hwfp : wf (pushProject prj w)) by (apply wf_pushProject, Hwf).
    assert (Hwf1 : wf w1) by (rewrite Hupd; apply wf_updateListeners, Hwfp).
    assert (Hr : objs w1 !! r = Some prj)
      by (rewrite Hobj; now apply list_lookup_middle).
    assert (Hin : r ∈ arr w1 (projects w1))
      by (rewrite Harr; apply elem_of_app; right; left).
    destruct (lists w !! ca) as [pla|] eqn:Ea; [|discriminate].
    destruct (lists w !! cf) as [plf|] eqn:Ef; [|discriminate].
    injection Hca as Hca. injection Hcf as Hcf.
    destruct (updateListeners_assigned (pushProject prj w) ca pla Hwfp Ea Hra)
      as [Hta Haa].
    destruct (updateListeners_assigned (pushProject prj w) cf plf Hwfp Ef Hrf)
      as [Htf Haf].
    rewrite <- Hupd in Hta, Haa, Htf, Haf. rewrite Hca in Hta, Haa.
    rewrite Hcf in Htf, Haf.
    split; [exact Hr|]. split; [|split; [|split]].
    + rewrite Haa. apply list_elem_of_In, filter_In. split.
      * now apply list_elem_of_In.
      * unfold relevantRef. now rewrite Hr.
    + rewrite Haf. intros H. apply list_elem_of_In, filter_In in H as [_ H].
      unfold relevantRef in H. rewrite Hr in H. discriminate.
    + intros Hfresh.
      exists (arr w (projects w)), [], prj. rewrite Harr.
      repeat split; try done.
      intros x q Hx Hq Heq. apply Hfresh. unfold ids.
      apply list_elem_of_In, in_map_iff. exists q. split; [done|].
      apply list_elem_of_In, list_elem_of_omap. exists x. split; [done|].
      destruct Hwf as (_ & Hrefs & _). rewrite Forall_forall in Hrefs.
      rewrite Hobj in Hq. now rewrite lookup_app_l in Hq by (now apply Hrefs).
    + intros Hfirst.
      assert (Hne : status prj <> Finished) by discriminate.
      destruct (moveProject_change w1 (JsNumber.toString rnd) Finished r prj
                  Hwf1 Hfirst Hr Hne)
        as (Hw2 & _ & Hobj2 & _ & _ & Harr2 & _).
      set (w2 := moveProject (JsNumber.toString rnd) Finished w1) in *.
      assert (Hat : objs w2 !! r = Some (setStatus Finished prj))
        by (now rewrite Hobj2, list_lookup_alter_eq, Hr).
      set (wm := set_objs (alter (setStatus Finished) r (objs w1)) w1) in *.
      assert (Hwfm : wf wm) by (apply wf_set_objs; [apply length_alter|done]).
      destruct (lists w1 !! ca) as [pla1|] eqn:Ea1; [|discriminate].
      destruct (lists w1 !! cf) as [plf1|] eqn:Ef1; [|discriminate].
      injection Hta as Hta. injection Htf as Htf.
      destruct (updateListeners_assigned wm ca pla1 Hwfm Ea1) as [_ Ha2];
        [change (listeners wm) with (listeners w1); now rewrite Hlis|].
      destruct (updateListeners_assigned wm cf plf1 Hwfm Ef1) as [_ Hf2];
        [change (listeners wm) with (listeners w1); now rewrite Hlis|].
      rewrite <- Hw2 in Ha2, Hf2. rewrite Hta in Ha2. rewrite Htf in Hf2.
      assert (Hin2 : r ∈ arr w2 (projects w2)) by (now rewrite Harr2).
      split; [now rewrite Hat|]. split.
      * rewrite Hf2. apply list_elem_of_In, filter_In. split.
        -- now apply list_elem_of_In.
        -- unfold relevantRef. now rewrite Hat.
      * rewrite Ha2. intros H. apply list_elem_of_In, filter_In in H as [_ H].
        unfold relevantRef in H. rewrite Hat in H. discriminate.
Qed.

Lemma list_listener_filters_witness :
  wf w_lists
  /\ assigned w_board 0 = [0] /\ assigned w_board 1 = []
  /\ 0 ∈ assigned (moveProject (js "0.5") Finished w_board) 1
  /\ (0 ∉ assigned (moveProject (js "0.5") Finished w_board) 0).
Proof.
  assert (Hwf : wf w_lists)
    by (apply wf_newProjectList, wf_newProjectList, wf_init).
  assert (Hreg0 : ListListener 0 ∈ listeners w_lists) by left.
  assert (Hreg1 : ListListener 1 ∈ listeners w_lists) by (right; left).
  destruct (proj2 (list_listener_filters w_lists 0 1 Hwf eq_refl eq_refl Hreg0 Hreg1)
              0.5%float (js "A") (js "desc!!") 3%float)
    as (_ & _ & _ & _ & Hmove).
  match type of Hmove with
  | ?A -> _ =>
      assert (Hfirst : A) by (apply findProject_Some; vm_compute; reflexivity)
  end.
  destruct (Hmove Hfirst) as (_ & Hin & Hout).
  vm_compute in Hin, Hout.
  split; [exact Hwf|]. split; [vm_compute; reflexivity|].
  split; [vm_compute; reflexivity|].
  split; vm_compute; [exact Hin | exact Hout].
Defined.

End StoreProperties.

(* ===================================================================== *)
(** ** The store: notification with the clients' listeners running *)
(* ===================================================================== *)

Section ClientListeners.

Import Store.
Local Open Scope nat_scope.

Implicit Types (w : World) (l : Listener) (ls : list Listener).
Implicit Types (a items : aref) (cl : Client.Clients).

(** With clients that return and do nothing the loop is the one of
    [Store.updateListeners]. *)
Lemma notifyAll_inert ls : forall w,
  Client.notifyAll Client.inert ls w = (fold_left notify ls w, Client.Returned).
Proof.
  induction ls as [|l ls IH]; intros w; [reflexivity|].
  cbn [Client.notifyAll fold_left].
  assert (H : Client.notify Client.inert w l = (notify w l, Client.Returned))
    by (destruct l; reflexivity).
  rewrite H. apply IH.
Qed.

Lemma updateListeners_inert w :
  Client.updateListeners Client.inert w = (updateListeners w, Client.Returned).
Proof. apply notifyAll_inert. Qed.










End ClientListeners.

(* ===================================================================== *)
(** ** The validator and the form *)
(* ===================================================================== *)

Section FormProperties.

Import Validator Store Ui.

Lemma digitsAux_suffix (fuel : nat) : forall (n : Z) (acc : jsstring),
  exists pre, JsNumber.digitsAux fuel n acc = pre ++ acc.
Proof.
  induction fuel as [|f IH]; intros n acc; cbn.
  - now exists [].
  - destruct (n / 10 =? 0)%Z.
    + now exists [(48 + n mod 10)%Z].
    + destruct (IH (n / 10)%Z ((48 + n mod 10)%Z :: acc)) as [pre ->].
      exists (pre ++ [(48 + n mod 10)%Z]). now rewrite <- app_assoc.
Qed.

Lemma digit_not_white (d : Z) :
  (0 <= d < 10)%Z -> isWhiteSpace (48 + d) = false.
Proof.
  intros H.
  assert (d = 0 \/ d = 1 \/ d = 2 \/ d = 3 \/ d = 4 \/ d = 5 \/ d = 6
          \/ d = 7 \/ d = 8 \/ d = 9)%Z as Hd by lia.
  repeat (destruct Hd as [->|Hd]; [reflexivity|]). now subst.
Qed.

Lemma decimal_hasContent (n : Z) : hasContent (JsNumber.decimal n).
Proof.
  unfold JsNumber.decimal. cbn [JsNumber.digitsAux].
  exists (48 + n mod 10)%Z. split.
  - destruct (n / 10 =? 0)%Z; [now left|].
    destruct (digitsAux_suffix (Z.to_nat (Z.log2 n)) (n / 10)%Z
                [(48 + n mod 10)%Z]) as [pre ->].
    apply in_or_app. right. now left.
  - apply digit_not_white, Z.mod_pos_bound. lia.
Qed.

Lemma hasContent_app_l (s t : jsstring) : hasContent s -> hasContent (s ++ t).
Proof. intros (c & Hc & Hw). exists c. split; [apply in_or_app; now left|done]. Qed.

Lemma hasContent_app_r (s t : jsstring) : hasContent t -> hasContent (s ++ t).
Proof. intros (c & Hc & Hw). exists c. split; [apply in_or_app; now right|done]. Qed.

Lemma hasContent_literal (s : jsstring) :
  existsb (fun c => negb (isWhiteSpace c)) s = true -> hasContent s.
Proof.
  intros H. apply existsb_exists in H as (c & Hc & Hw).
  exists c. split; [done|]. now destruct (isWhiteSpace c).
Qed.

(** The string of a number is never blank. *)
Lemma toString_hasContent (x : JsNumber.number) :
  hasContent (JsNumber.toString x).
Proof.
  unfold JsNumber.toString.
  destruct (Prim2SF x) as [sg|sg| |sg m e];
    try (try destruct sg; apply hasContent_literal; reflexivity).
  destruct (JsNumber.shortest _ _ _ _ _) as [[n k] d].
  apply hasContent_app_r. unfold JsNumber.layout.
  repeat match goal with |- context [if ?b then _ else _] => destruct b end;
    first [ apply hasContent_app_l, decimal_hasContent
          | apply hasContent_app_l, hasContent_literal; reflexivity
          | apply hasContent_app_r, hasContent_app_l, hasContent_literal;
            reflexivity ].
Qed.

Lemma nonBlank_hasContent (v : Value) :
  nonBlank v = true <-> hasContent (Validator.toString v).
Proof.
  unfold nonBlank. generalize (Validator.toString v) as s. intros s.
  assert (Hnil : trim s = [] <-> ~ hasContent s).
  { rewrite trim_nil_iff, forallb_forall. split.
    - intros H (c & Hc & Hw). rewrite (H c Hc) in Hw. discriminate.
    - intros H c Hc. destruct (isWhiteSpace c) eqn:E; [done|].
      exfalso. apply H. now exists c. }
  destruct (trim s) as [|c t] eqn:E; cbn.
  - split; [discriminate|]. intros H. now apply Hnil in H.
  - split; [|done]. intros _.
    destruct (forallb isWhiteSpace s) eqn:F.
    + apply trim_nil_iff in F. congruence.
    + clear -F. induction s as [|d s IH]; cbn in F; [discriminate|].
      destruct (isWhiteSpace d) eqn:Ed; cbn in F.
      * destruct (IH F) as (x & Hx & Hw). exists x. split; [now right|done].
      * exists d. split; [now left|done].
Qed.

(** X3. On a numeric value [required] rejects nothing, whatever the number:
    its string is never blank. The result is the one of the two numeric
    bounds alone. *)
Theorem required_vacuous_for_numbers (x : JsNumber.number) (req : option bool)
    (ml xl mn mx : option JsNumber.number) :
  validate (mkValidatable (VNumber x) req ml xl mn mx)
  = validate (mkValidatable (VNumber x) None ml xl mn mx)
  /\ validate (mkValidatable (VNumber x) req ml xl mn mx)
     = match mn with Some m => JsNumber.gt x m | None => true end
       && match mx with Some m => JsNumber.lt x m | None => true end.
Proof.
  assert (Hnb : nonBlank (VNumber x) = true)
    by (apply nonBlank_hasContent, toString_hasContent).
  rewrite !validate_factors. cbn. rewrite Hnb.
  destruct (truthy req), ml, xl, mn, mx; cbn; rewrite ?andb_true_r; done.
Qed.

(** X4. A constraint can only narrow: an object that is valid stays valid
    when constraints are taken away from it. *)
Theorem validate_narrowing (val : Value) (req req' : option bool)
    (ml ml' xl xl' mn mn' mx mx' : option JsNumber.number)
    (Hreq : truthy req = true -> truthy req' = true)
    (Hml : ml = None \/ ml = ml') (Hxl : xl = None \/ xl = xl')
    (Hmn : mn = None \/ mn = mn') (Hmx : mx = None \/ mx = mx')
    (Hvalid : validate (mkValidatable val req' ml' xl' mn' mx') = true) :
  validate (mkValidatable val req ml xl mn mx) = true.
Proof.
  rewrite validate_factors in *. cbn in *.
  rewrite !andb_true_iff in Hvalid.
  destruct Hvalid as [[[[H1 H2] H3] H4] H5].
  rewrite !andb_true_iff. repeat split.
  - destruct (truthy req); [|done]. now rewrite Hreq in H1.
  - destruct Hml as [->| ->]; [now destruct val|done].
  - destruct Hxl as [->| ->]; [now destruct val|done].
  - destruct Hmn as [->| ->]; [now destruct val|done].
  - destruct Hmx as [->| ->]; [now destruct val|done].
Qed.

Lemma validate_narrowing_witness :
  validate (descriptionConf (js "desc!!")) = true
  /\ validate (mkValidatable (VString (js "desc!!")) None None None None None)
     = true.
Proof.
  assert (H : validate (descriptionConf (js "desc!!")) = true) by reflexivity.
  exact (conj H
    (validate_narrowing (VString (js "desc!!")) None (Some true)
       None (Some 5%float) None None None None None None
       (fun E => eq_refl) (or_introl eq_refl) (or_introl eq_refl)
       (or_introl eq_refl) (or_introl eq_refl) H)).
Defined.

Lemma titleConf_factors (s : jsstring) :
  validate (titleConf s) = nonBlank (VString s).
Proof. rewrite validate_factors. cbn. now rewrite !andb_true_r. Qed.

Lemma descriptionConf_factors (s : jsstring) :
  validate (descriptionConf s)
  = nonBlank (VString s) && JsNumber.ge (JsNumber.ofNat (length s)) 5%float.
Proof. rewrite validate_factors. cbn. now rewrite !andb_true_r. Qed.

Lemma peopleConf_factors (x : JsNumber.number) :
  validate (peopleConf x) = JsNumber.gt x 1%float && JsNumber.lt x 10%float.
Proof.
  rewrite validate_factors. cbn.
  assert (Hnb : nonBlank (VNumber x) = true)
    by (apply nonBlank_hasContent, toString_hasContent).
  now rewrite Hnb.
Qed.

(** X5. The people field of the form passes exactly for the numbers
    strictly between 1 and 10, whole or not. NaN (text that is no number),
    0 (the empty field), the two bounds and the infinities are rejected,
    all by the bounds: [required] plays no part. *)
Theorem people_field_range (x : JsNumber.number) :
  validate (peopleConf x) = JsNumber.gt x 1%float && JsNumber.lt x 10%float
  /\ validate (peopleConf nan) = false
  /\ validate (peopleConf 0%float) = false
  /\ validate (peopleConf infinity) = false
  /\ validate (peopleConf 2.5%float) = true.
Proof.
  split; [apply peopleConf_factors|].
  rewrite !peopleConf_factors. repeat split.
Qed.

Lemma gatherUserInput_cases (t d : jsstring) (n : JsNumber.number) :
  (gatherUserInput t d n = Some (t, d, n) /\ accepted t d n)
  \/ (gatherUserInput t d n = None /\ ~ accepted t d n).
Proof.
  rewrite gatherUserInput_Some, titleConf_factors, descriptionConf_factors,
    peopleConf_factors.
  unfold accepted.
  pose proof (nonBlank_hasContent (VString t)) as Ht.
  pose proof (nonBlank_hasContent (VString d)) as Hd. cbn in Ht, Hd.
  destruct (nonBlank (VString t)) eqn:E1;
    [|right; split; [done|]; intros (H & _); apply Ht in H; discriminate].
  destruct (nonBlank (VString d)) eqn:E2;
    [|right; split; [done|]; intros (_ & H & _); apply Hd in H; discriminate].
  destruct (JsNumber.ge _ _) eqn:E3;
    [|right; split; [done|]; intros (_ & _ & H & _); discriminate].
  destruct (JsNumber.gt _ _) eqn:E4;
    [|right; split; [done|]; intros (_ & _ & _ & H & _); discriminate].
  destruct (JsNumber.lt _ _) eqn:E5;
    [|right; split; [done|]; intros (_ & _ & _ & _ & H); discriminate].
  left. split; [done|]. repeat split; try done; [now apply Ht|now apply Hd].
Qed.

(** X6. The form hands on its input exactly when the title has a character
    that is not white space, the description has one as well and is at
    least 5 code units long, and the people number is strictly between 1
    and 10; otherwise it hands on nothing. What it hands on is the input as
    entered: white space is looked at, not removed, and the length of the
    description is counted with its white space. *)
Theorem gatherUserInput_accepts (t d : jsstring) (n : JsNumber.number) :
  (gatherUserInput t d n = Some (t, d, n) <-> accepted t d n)
  /\ (gatherUserInput t d n = None <-> ~ accepted t d n)
  /\ gatherUserInput (js "  A ") (js "a    ") 2.5%float
     = Some (js "  A ", js "a    ", 2.5%float)
  /\ gatherUserInput (js "A") (js "     ") 2.5%float = None.
Proof.
  split; [|split; [|split; reflexivity]].
  - destruct (gatherUserInput_cases t d n) as [[-> Ha]|[-> Ha]];
      split; try done.
  - destruct (gatherUserInput_cases t d n) as [[-> Ha]|[-> Ha]];
      split; try done.
Qed.

End FormProperties.

(* ===================================================================== *)
(** ** The store: registration, repeated moves, arrays handed out *)
(* ===================================================================== *)

Section StoreMore.

Import Store.
Local Open Scope nat_scope.

Implicit Types (w : World) (l : Listener) (a r : nat) (prj : Project).



(** X2. A move repeated is the move done once: the second call finds the
    record in the status asked for and leaves everything, the trace of
    notifications included, as the first call left it. *)
Theorem moveProject_idempotent (w : World) (projectId : jsstring)
    (newStatus : ProjectStatus) (Hwf : wf w) :
  moveProject projectId newStatus (moveProject projectId newStatus w)
  = moveProject projectId newStatus w.
Proof.
  destruct (moveProject_cases w projectId newStatus Hwf)
    as [Heq|(r & prj & Hfirst & Hr & Hne & Hobj)].
  - now rewrite !Heq.
  - destruct (moveProject_change w projectId newStatus r prj Hwf Hfirst Hr Hne)
      as (_ & _ & _ & _ & _ & Harr & _).
    set (w1 := moveProject projectId newStatus w) in *.
    assert (Hat : objs w1 !! r = Some (setStatus newStatus prj))
      by (now rewrite Hobj, list_lookup_alter_eq, Hr).
    apply (moveProject_same w1 _ _ r (setStatus newStatus prj)); [|done|done].
    apply (firstWithId_transport w); try done.
    + intros x q Hq. destruct (decide (x = r)) as [->|Hx].
      * exists prj. split; [done|]. rewrite Hat in Hq. now injection Hq as <-.
      * exists q. split; [|done].
        rewrite Hobj in Hq. now rewrite list_lookup_alter_ne in Hq.
    + exists (setStatus newStatus prj). split; [done|].
      now destruct Hfirst as (_ & _ & p0 & _ & Hp0 & <- & _); simplify_eq.
Qed.

Lemma moveProject_idempotent_witness :
  wf w_one
  /\ moveProject (js "0.5") Finished (moveProject (js "0.5") Finished w_one)
     = moveProject (js "0.5") Finished w_one.
Proof.
  pose proof (Reachable_wf _ Reachable_w_one) as Hwf.
  exact (conj Hwf (moveProject_idempotent w_one (js "0.5") Finished Hwf)).
Defined.

(** Through an operation of the store the arrays that exist and are not the
    store's keep their elements, the heap of arrays does not shrink, and the
    calls made so far stay in the trace. *)
Lemma exec_arrays o w :
  wf w ->
  length (arrs w) <= length (arrs (exec o w))
  /\ (forall a, a < length (arrs w) -> a <> projects w ->
        arr (exec o w) a = arr w a)
  /\ (exists more, calls (exec o w) = calls w ++ more
        /\ Forall (fun c : Listener * nat => snd c < length (arrs (exec o w)))
                  more).
Proof.
  intros Hwf.
  assert (Hupd : forall w0, wf w0 ->
            length (arrs w0) = length (arrs w) ->
            (forall a, a <> projects w -> arr w0 a = arr w a) ->
            calls w0 = calls w ->
            length (arrs w) <= length (arrs (updateListeners w0))
            /\ (forall a, a < length (arrs w) -> a <> projects w ->
                  arr (updateListeners w0) a = arr w a)
            /\ (exists more, calls (updateListeners w0) = calls w ++ more
                  /\ Forall (fun c : Listener * nat =>
                               snd c < length (arrs (updateListeners w0))) more)).
  { intros w0 Hwf0 Hlen Harr Hcalls.
    destruct (updateListeners_spec w0 Hwf0)
      as (_ & _ & _ & _ & _ & Hpre & (snaps & Hc & Hl & _ & Hall)).
    split; [apply prefix_length in Hpre; lia|]. split.
    - intros a Ha Hne. rewrite <- Harr by done. apply arr_prefix; [done|lia].
    - exists (zip (listeners w0) snaps). split; [now rewrite Hc, Hcalls|].
      apply Forall_forall. intros [l a] Hin. cbn.
      apply elem_of_zip_r in Hin. rewrite Forall_forall in Hall.
      destruct (Hall a Hin) as ((_ & Hlt) & _). exact Hlt. }
  assert (Hid : length (arrs w) <= length (arrs w)
            /\ (forall a, a < length (arrs w) -> a <> projects w ->
                  arr w a = arr w a)
            /\ (exists more, calls w = calls w ++ more
                  /\ Forall (fun c : Listener * nat => snd c < length (arrs w))
                            more)).
  { split; [done|]. split; [done|]. exists []. now rewrite app_nil_r. }
  destruct o as [l|rnd t d p| |pid st]; cbn [exec].
  - exact Hid.
  - unfold addProject. apply Hupd.
    + apply wf_pushProject, Hwf.
    + cbn. apply length_alter.
    + intros a Hne. unfold arr. cbn. now rewrite list_lookup_alter_ne.
    + reflexivity.
  - now apply Hupd.
  - destruct (moveProject_cases w pid st Hwf)
      as [->|(r & prj & Hfirst & Hr & Hne & _)]; [exact Hid|].
    destruct (moveProject_change w pid st r prj Hwf Hfirst Hr Hne) as (-> & _).
    apply Hupd; try done.
    apply wf_set_objs; [apply length_alter|done].
Qed.

(** In every state of a run the arrays handed to listeners exist. *)
Lemma Reachable_handed w :
  Reachable w ->
  Forall (fun c : Listener * nat => snd c < length (arrs w)) (calls w).
Proof.
  induction 1 as [|o w Hr IH|ty w Hr IH|l a op w Hr IH Hin].
  - constructor.
  - destruct (exec_arrays o w (Reachable_wf w Hr))
      as (Hlen & _ & (more & -> & Hmore)).
    apply Forall_app. split; [|done].
    eapply Forall_impl; [exact IH|]. cbn. intros; lia.
  - unfold newProjectList. cbn. rewrite !length_app. cbn.
    eapply Forall_impl; [exact IH|]. cbn. intros; lia.
  - destruct op as [f|i f]; cbn.
    + rewrite length_alter. exact IH.
    + destruct (arr w a !! i); exact IH.
Qed.

(** X12. The store never writes to an array it has handed to a listener:
    in every state of a run such an array exists, is not the store's own,
    and has the same elements after any operation of the store; the call
    stays in the trace. Additions and removals in the store do not show in
    it. *)
Theorem handed_arrays_stable (w : World) (l : Listener) (a : nat) (o : Op)
    (Hreach : Reachable w) (Hin : (l, a) ∈ calls w) :
  a < length (arrs w)
  /\ a <> projects w
  /\ arr (exec o w) a = arr w a
  /\ (l, a) ∈ calls (exec o w).
Proof.
  pose proof (Reachable_wf w Hreach) as Hwf.
  pose proof (Reachable_handed w Hreach) as Hh.
  rewrite Forall_forall in Hh. specialize (Hh _ Hin). cbn in Hh.
  destruct Hwf as (Hp & Hrefs & Hnd & Hcalls).
  rewrite Forall_forall in Hcalls. specialize (Hcalls _ Hin). cbn in Hcalls.
  destruct (exec_arrays o w (Reachable_wf w Hreach))
    as (_ & Hsame & (more & Hc & _)).
  split; [exact Hh|]. split; [exact Hcalls|]. split; [now apply Hsame|].
  rewrite Hc. apply elem_of_app. now left.
Qed.

Lemma handed_arrays_stable_witness :
  Reachable w_one
  /\ (Callback 0, 1) ∈ calls w_one
  /\ arr (exec (OpAddProject 0.25%float (js "B") (js "other") 2%float) w_one) 1
     = arr w_one 1.
Proof.
  assert (Hin : (Callback 0, 1) ∈ calls w_one) by (vm_compute; left).
  exact (conj Reachable_w_one (conj Hin
    (proj1 (proj2 (proj2
       (handed_arrays_stable w_one (Callback 0) 1
          (OpAddProject 0.25%float (js "B") (js "other") 2%float)
          Reachable_w_one Hin)))))).
Defined.

Lemma omap_total_length {A B} (f : A -> option B) (xs : list A) :
  Forall (fun x => is_Some (f x)) xs -> length (omap f xs) = length xs.
Proof.
  induction 1 as [|x xs [y Hy] _ IH]; [done|].
  change (omap f (x :: xs))
    with (match f x with Some y => y :: omap f xs | None => omap f xs end).
  rewrite Hy. cbn. now rewrite IH.
Qed.

(** X13. In every state of a run, whatever the holders of snapshots did
    in between, the store's array holds existing records only, and each
    record once: the sequence has one record per entry of the array, and
    no record twice by reference. *)
Theorem reachable_sequence_sound (w : World) (Hreach : Reachable w) :
  NoDup (arr w (projects w))
  /\ length (sequence w) = length (arr w (projects w))
  /\ Forall (fun r => is_Some (objs w !! r)) (arr w (projects w)).
Proof.
  destruct (Reachable_wf w Hreach) as (_ & Hrefs & Hnd & _).
  split; [exact Hnd|].
  assert (Hsome : Forall (fun r => is_Some (objs w !! r)) (arr w (projects w))).
  { eapply Forall_impl; [exact Hrefs|]. cbn. intros r Hr.
    now apply lookup_lt_is_Some_2. }
  split; [|exact Hsome].
  unfold sequence, records. now apply omap_total_length.
Qed.

Lemma reachable_sequence_sound_witness :
  Reachable w_clash /\ length (sequence w_clash) = length (arr w_clash (projects w_clash)).
Proof.
  assert (Hr : Reachable w_clash).
  { exact (reach_exec (OpMoveProject (js "0.5") Finished) _
             (reach_exec (OpAddProject 0.5%float (js "B") (js "other") 2%float) _
                Reachable_w_one)). }
  exact (conj Hr (proj1 (proj2 (reachable_sequence_sound w_clash Hr)))).
Defined.

End StoreMore.

(* ===================================================================== *)
(** ** The board: form, lists and drops *)
(* ===================================================================== *)

Section BoardProperties.

Import Validator Store Ui.
Local Open Scope nat_scope.

Implicit Types (w : World) (l : Listener) (a r c : nat) (prj : Project).

Lemma SFcompare_Lt_swap (f g : spec_float) :
  SFcompare f g = Some Lt -> SFcompare g f = Some Gt.
Proof.
  destruct f as [s1|s1| |s1 m1 e1], g as [s2|s2| |s2 m2 e2]; cbn;
    try destruct s1; try destruct s2; try discriminate; try reflexivity;
    rewrite (Z.compare_antisym e1 e2);
    change (Pos.compare_cont Eq m2 m1) with (Pos.compare m2 m1);
    change (Pos.compare_cont Eq m1 m2) with (Pos.compare m1 m2);
    rewrite (Pos.compare_antisym m1 m2);
    destruct (Z.compare e1 e2), (Pos.compare m1 m2); cbn; congruence.
Qed.

(** A number above another is not equal to it. *)
Lemma gt_not_eqb (x y : JsNumber.number) :
  JsNumber.gt x y = true -> PrimFloat.eqb x y = false.
Proof.
  unfold JsNumber.gt. rewrite FloatAxioms.ltb_spec, FloatAxioms.eqb_spec.
  unfold SFltb, SFeqb. intros H.
  destruct (SFcompare (Prim2SF y) (Prim2SF x)) as [[| |]|] eqn:E;
    try discriminate.
  now rewrite (SFcompare_Lt_swap _ _ E).
Qed.

Lemma formValid_sameButStatus prj prj' :
  sameButStatus prj prj' -> formValid prj -> formValid prj'.
Proof.
  intros (Hi & Ht & Hd & Hp). unfold formValid. now rewrite Ht, Hd, Hp.
Qed.

Lemma moveProject_sequence w (projectId : jsstring) (st : ProjectStatus) :
  wf w -> Forall2 sameButStatus (sequence w) (sequence (moveProject projectId st w)).
Proof.
  intros Hwf.
  assert (Hrefl : forall xs, Forall2 sameButStatus xs xs).
  { intros xs. apply Forall_Forall2_diag, Forall_forall.
    intros ? _. apply sameButStatus_refl. }
  destruct (moveProject_cases w projectId st Hwf)
    as [->|(r & prj & Hfirst & Hr & Hne & _)]; [apply Hrefl|].
  destruct (moveProject_change w projectId st r prj Hwf Hfirst Hr Hne)
    as (_ & _ & _ & _ & _ & _ & (before & after & -> & ->)).
  apply Forall2_app; [apply Hrefl|]. constructor; [|apply Hrefl].
  apply sameButStatus_setStatus.
Qed.

(** An event of the page is an operation of the store, or nothing. *)
Lemma handle_exec (e : Event) w :
  handle e w = w
  \/ (exists rnd t d n, accepted t d n
        /\ handle e w = exec (OpAddProject rnd t d n) w)
  \/ (exists projectId st, handle e w = exec (OpMoveProject projectId st) w).
Proof.
  destruct e as [rnd t d n|c payload]; cbn.
  - unfold submitHandler.
    destruct (gatherUserInput_cases t d n) as [[-> Ha]|[-> _]]; [|now left].
    right. left. now exists rnd, t, d, n.
  - unfold dropHandler. destruct (lists w !! c) as [pl|]; [|now left].
    right. right. eauto.
Qed.

Lemma UiReachable_Board w : UiReachable w -> BoardReachable w.
Proof.
  induction 1 as [|e w _ IH]; [constructor|].
  destruct (handle_exec e w) as [->|[(rnd & t & d & n & _ & ->)|(i & st & ->)]];
    [done| |]; now constructor.
Qed.

Lemma BoardReachable_Reachable w : BoardReachable w -> Reachable w.
Proof.
  induction 1; [|now constructor].
  exact (reach_list finished _ (reach_list active _ reach_init)).
Qed.

Lemma lists_updateListeners w c :
  wf w ->
  projectType <$> lists (updateListeners w) !! c = projectType <$> lists w !! c.
Proof.
  intros Hwf.
  destruct (notify_loop (listeners w) w (proj1 Hwf))
    as (_ & _ & _ & _ & _ & Hlen & Hlists).
  fold (updateListeners w) in *.
  destruct (lists (updateListeners w) !! c) as [pl'|] eqn:E.
  - destruct (Hlists c pl' E) as (pl & -> & Hty & _). cbn. now rewrite Hty.
  - apply lookup_ge_None in E. rewrite Hlen in E.
    apply lookup_ge_None in E. now rewrite E.
Qed.

Lemma boardInv_updateListeners w0 :
  wf w0 ->
  (forall c pl, lists w0 !! c = Some pl -> ListListener c ∈ listeners w0) ->
  projectType <$> lists w0 !! 0 = Some active ->
  projectType <$> lists w0 !! 1 = Some finished ->
  boardInv (updateListeners w0).
Proof.
  intros Hwf Hreg H0 H1.
  split; [now apply wf_updateListeners|].
  split; [|split; now rewrite lists_updateListeners].
  intros c pl' Hc.
  pose proof (lists_updateListeners w0 c Hwf) as Hty. rewrite Hc in Hty.
  destruct (lists w0 !! c) as [pl|] eqn:E; [|discriminate].
  injection Hty as Hty.
  destruct (updateListeners_assigned w0 c pl Hwf E (Hreg c pl E)) as [_ Ha].
  split.
  - rewrite (proj1 (proj2 (updateListeners_spec w0 Hwf))). now apply (Hreg c pl).
  - now rewrite Hty.
Qed.

Lemma boardInv_init : boardInv w_lists.
Proof.
  split; [apply wf_newProjectList, wf_newProjectList, wf_init|].
  split; [|split; reflexivity].
  intros [|[|c]] pl Hc; cbn in Hc; try discriminate; injection Hc as <-.
  - split; [left|reflexivity].
  - split; [right; left|reflexivity].
Qed.

Lemma boardInv_exec o w : boardInv w -> boardInv (exec o w).
Proof.
  intros (Hwf & Hsync & H0 & H1).
  assert (Hreg : forall c pl, lists w !! c = Some pl ->
                   ListListener c ∈ listeners w)
    by (intros c pl Hc; apply (Hsync c pl Hc)).
  destruct o as [l|rnd t d n| |pid st]; cbn [exec].
  - split; [exact Hwf|]. split; [|split; assumption].
    intros c pl Hc. destruct (Hsync c pl Hc) as [Hin Ha].
    split; [|exact Ha]. apply elem_of_app. now left.
  - unfold addProject. apply boardInv_updateListeners; try done.
    apply wf_pushProject, Hwf.
  - now apply boardInv_updateListeners.
  - destruct (moveProject_cases w pid st Hwf)
      as [->|(r & prj & Hfirst & Hr & Hne & _)]; [done|].
    destruct (moveProject_change w pid st r prj Hwf Hfirst Hr Hne) as (-> & _).
    apply boardInv_updateListeners; try done.
    apply wf_set_objs; [apply length_alter|done].
Qed.

Lemma BoardReachable_inv w : BoardReachable w -> boardInv w.
Proof. induction 1; [apply boardInv_init|now apply boardInv_exec]. Qed.

(** X7. A submit with input the form rejects leaves the state as it is:
    no record, no notification. A submit with accepted input appends one
    Active record with the fields as entered and notifies once. *)
Theorem submitHandler_effect (w : World) (rnd : JsNumber.number)
    (t d : jsstring) (n : JsNumber.number) (Hwf : wf w) :
  (~ accepted t d n -> submitHandler rnd t d n w = w)
  /\ (accepted t d n ->
        let w' := submitHandler rnd t d n w in
        sequence w' = sequence w ++ [mkProject (JsNumber.toString rnd) t d n Active]
        /\ notified w w').
Proof.
  unfold submitHandler.
  destruct (gatherUserInput_cases t d n) as [[-> Ha]|[-> Hn]].
  - split; [done|]. intros _. cbv zeta.
    destruct (addProject_heap w rnd t d n Hwf) as (Hs & _ & _ & _ & _ & Hnot).
    now split.
  - split; [done|]. intros Ha. contradiction.
Qed.

Lemma submitHandler_effect_witness :
  wf w_lists
  /\ submitHandler 0.5%float (js "A") (js "abc") 3%float w_lists = w_lists.
Proof.
  assert (Hwf : wf w_lists)
    by (apply wf_newProjectList, wf_newProjectList, wf_init).
  assert (Hn : ~ accepted (js "A") (js "abc") 3%float).
  { intros (_ & _ & H & _). vm_compute in H. discriminate. }
  exact (conj Hwf
    (proj1 (submitHandler_effect w_lists 0.5%float (js "A") (js "abc") 3%float Hwf)
       Hn)).
Defined.

Lemma UiReachable_valid w : UiReachable w -> Forall formValid (sequence w).
Proof.
  induction 1 as [|e w Hr IH]; [constructor|].
  pose proof (Reachable_wf _ (BoardReachable_Reachable _ (UiReachable_Board _ Hr)))
    as Hwf.
  destruct (handle_exec e w) as [->|[(rnd & t & d & n & Ha & ->)|(i & st & ->)]];
    cbn [exec].
  - exact IH.
  - destruct (addProject_heap w rnd t d n Hwf) as (-> & _).
    apply Forall_app. split; [exact IH|]. constructor; [exact Ha|constructor].
  - pose proof (moveProject_sequence w i st Hwf) as H2.
    revert IH. induction H2 as [|x y xs ys Hxy _ IH2]; [constructor|].
    intros Hf. apply Forall_cons in Hf as [Hx Hxs]. constructor; [|now apply IH2].
    now apply (formValid_sameButStatus x).
Qed.

Lemma UiReachable_w_board : UiReachable w_board.
Proof.
  assert (Heq : handle (Submit 0.5%float (js "A") (js "desc!!") 3%float) w_lists
                = w_board) by (vm_compute; reflexivity).
  rewrite <- Heq. exact (ui_event _ _ ui_init).
Qed.

(** X8. Every record the page ever holds satisfies the constraints of the
    form: whatever the sequence of submits and drops, each record of the
    store has a title and a description with a character that is not white
    space, a description of at least 5 code units, and a people number
    strictly between 1 and 10. *)
Theorem ui_records_valid (w : World) (Hreach : UiReachable w) :
  Forall formValid (sequence w)
  /\ Forall (fun prj => validate (titleConf (title prj)) = true
                        /\ validate (descriptionConf (description prj)) = true
                        /\ validate (peopleConf (people prj)) = true)
            (sequence w).
Proof.
  pose proof (UiReachable_valid w Hreach) as H. split; [exact H|].
  eapply Forall_impl; [exact H|]. intros prj (H1 & H2 & H3 & H4 & H5).
  cbv beta. rewrite titleConf_factors, descriptionConf_factors, peopleConf_factors.
  rewrite (proj2 (nonBlank_hasContent (VString (title prj))) H1).
  rewrite (proj2 (nonBlank_hasContent (VString (description prj))) H2).
  now rewrite H3, H4, H5.
Qed.

Lemma ui_records_valid_witness :
  UiReachable w_board /\ Forall formValid (sequence w_board).
Proof.
  assert (Hr : UiReachable w_board) by exact UiReachable_w_board.
  exact (conj Hr (proj1 (ui_records_valid w_board Hr))).
Defined.

(** X9. The text "1 Person" is never shown for a record of the page: the
    form admits no record with exactly 1 person, so the label of a record
    is always its number followed by " persons". *)
Theorem persons_never_singular (w : World) (Hreach : UiReachable w) :
  Forall (fun prj =>
            persons prj = JsNumber.toString (people prj) ++ js " persons"
            /\ persons prj <> js "1 Person"
            /\ h3 (projectItem prj)
               = JsNumber.toString (people prj) ++ js " persons"
                 ++ js " assigned.")
         (sequence w).
Proof.
  eapply Forall_impl; [exact (UiReachable_valid w Hreach)|].
  intros prj (_ & _ & _ & Hgt & _). cbv beta.
  assert (Hp : persons prj = JsNumber.toString (people prj) ++ js " persons")
    by (unfold persons; now rewrite (gt_not_eqb _ _ Hgt)).
  split; [exact Hp|]. split.
  - rewrite Hp. intros E. apply (f_equal (@rev Z)) in E.
    rewrite rev_app_distr in E. discriminate E.
  - cbn [h3 projectItem]. rewrite Hp. now rewrite <- app_assoc.
Qed.

Lemma persons_never_singular_witness :
  UiReachable w_board
  /\ Forall (fun prj =>
               persons prj = JsNumber.toString (people prj) ++ js " persons")
            (sequence w_board).
Proof.
  assert (Hr : UiReachable w_board) by exact UiReachable_w_board.
  split; [exact Hr|].
  eapply Forall_impl; [exact (persons_never_singular w_board Hr)|].
  intros prj H. exact (proj1 H).
Defined.

(** The status a list stands for. *)
Lemma relevant_status (ty : ListType) prj :
  relevant ty prj = true
  <-> status prj = match ty with active => Active | finished => Finished end.
Proof. destruct ty; cbn; apply bool_decide_eq_true. Qed.

Lemma elem_of_filter_bool {A} (f : A -> bool) (xs : list A) (x : A) :
  x ∈ List.filter f xs <-> x ∈ xs /\ f x = true.
Proof. rewrite !list_elem_of_In. apply filter_In. Qed.

Lemma board_lists w :
  boardInv w ->
  assigned w 0 = List.filter (relevantRef w active) (arr w (projects w))
  /\ assigned w 1 = List.filter (relevantRef w finished) (arr w (projects w)).
Proof.
  intros (_ & Hsync & H0 & H1).
  destruct (lists w !! 0) as [pl0|] eqn:E0; [|discriminate].
  destruct (lists w !! 1) as [pl1|] eqn:E1; [|discriminate].
  injection H0 as H0. injection H1 as H1.
  destruct (Hsync 0 pl0 E0) as [_ Ha0]. destruct (Hsync 1 pl1 E1) as [_ Ha1].
  now rewrite Ha0, Ha1, H0, H1.
Qed.

Lemma PageReachable_Board w : PageReachable w -> BoardReachable w.
Proof. induction 1; [apply board_init|now apply board_exec]. Qed.

Lemma PageReachable_listeners w :
  PageReachable w -> listeners w = [ListListener 0; ListListener 1].
Proof.
  induction 1 as [|o w Hown Hr IH]; [reflexivity|].
  pose proof (Reachable_wf _ (BoardReachable_Reachable _ (PageReachable_Board _ Hr)))
    as Hwf.
  rewrite <- IH.
  destruct o as [l|rnd t d n| |pid st]; cbn [exec]; [discriminate| | |].
  - unfold addProject.
    set (prj := mkProject (JsNumber.toString rnd) t d n Active).
    destruct (updateListeners_spec _ (wf_pushProject w prj Hwf)) as (_ & Hl & _).
    exact Hl.
  - destruct (updateListeners_spec _ Hwf) as (_ & Hl & _). exact Hl.
  - unfold moveProject.
    destruct (findProject pid w) as [r|]; [|done].
    destruct (objs w !! r) as [prj|]; [|done].
    case_bool_decide; [|done].
    assert (Hwf1 : wf (set_objs (alter (setStatus st) r (objs w)) w))
      by (apply wf_set_objs; [apply length_alter|done]).
    destruct (updateListeners_spec _ Hwf1) as (_ & Hl & _). exact Hl.
Qed.

(** X10. On the page as [app.ts] sets it up, where the listeners of the
    two lists are the only ones registered, and under any use of the store
    by the page ([addProject], [moveProject], [updateListeners]), the two
    lists divide the store between them: the active list holds exactly the
    Active records, the finished list exactly the Finished ones, both in
    the order of the store, and what each list renders is one item per such
    record. Every record of the store is in one list and not in the other,
    and no record is shown twice. *)
Theorem board_lists_partition (w : World) (Hreach : PageReachable w) :
  listeners w = [ListListener 0; ListListener 1]
  /\ assigned w 0 = List.filter (relevantRef w active) (arr w (projects w))
  /\ assigned w 1 = List.filter (relevantRef w finished) (arr w (projects w))
  /\ renderProjects w 0
     = List.map projectItem (List.filter (relevant active) (sequence w))
  /\ renderProjects w 1
     = List.map projectItem (List.filter (relevant finished) (sequence w))
  /\ (forall r, r ∈ arr w (projects w) ->
        (r ∈ assigned w 0 /\ (r ∉ assigned w 1))
        \/ ((r ∉ assigned w 0) /\ r ∈ assigned w 1))
  /\ NoDup (assigned w 0 ++ assigned w 1).
Proof.
  split; [exact (PageReachable_listeners w Hreach)|].
  pose proof (BoardReachable_inv w (PageReachable_Board w Hreach)) as Hinv.
  destruct (board_lists w Hinv) as [Ha0 Ha1].
  destruct Hinv as ((_ & Hrefs & Hnd & _) & _).
  split; [exact Ha0|]. split; [exact Ha1|].
  split; [unfold renderProjects; rewrite Ha0; f_equal; apply records_filter|].
  split; [unfold renderProjects; rewrite Ha1; f_equal; apply records_filter|].
  assert (Hex : forall r, relevantRef w active r = true ->
                          relevantRef w finished r = true -> False).
  { intros r. unfold relevantRef. destruct (objs w !! r) as [prj|]; [|done].
    rewrite !relevant_status. congruence. }
  split.
  - intros r Hr. rewrite Ha0, Ha1, !elem_of_filter_bool.
    rewrite Forall_forall in Hrefs.
    destruct (lookup_lt_is_Some_2 _ _ (Hrefs r Hr)) as [prj Hp].
    destruct (status prj) eqn:Es.
    + left. split.
      * split; [done|]. unfold relevantRef. rewrite Hp. now apply relevant_status.
      * intros [_ H]. unfold relevantRef in H. rewrite Hp in H.
        apply relevant_status in H. congruence.
    + right. split.
      * intros [_ H]. unfold relevantRef in H. rewrite Hp in H.
        apply relevant_status in H. congruence.
      * split; [done|]. unfold relevantRef. rewrite Hp. now apply relevant_status.
  - rewrite Ha0, Ha1. apply NoDup_app. repeat split.
    + now apply NoDup_ListNoDup, List.NoDup_filter, NoDup_ListNoDup.
    + intros r H0 H1. apply elem_of_filter_bool in H0 as [_ H0].
      apply elem_of_filter_bool in H1 as [_ H1]. eauto.
    + now apply NoDup_ListNoDup, List.NoDup_filter, NoDup_ListNoDup.
Qed.

Lemma PageReachable_w_board : PageReachable w_board.
Proof.
  assert (H : exec (OpAddProject 0.5%float (js "A") (js "desc!!") 3%float) w_lists
              = w_board) by (vm_compute; reflexivity).
  rewrite <- H. apply page_exec; [reflexivity|apply page_init].
Qed.

Lemma board_lists_partition_witness :
  PageReachable w_board /\ assigned w_board 0 = [0] /\ assigned w_board 1 = [].
Proof.
  pose proof PageReachable_w_board as Hr.
  destruct (board_lists_partition w_board Hr) as (_ & H0 & H1 & _).
  split; [exact Hr|]. split.
  - rewrite H0. vm_compute. reflexivity.
  - rewrite H1. vm_compute. reflexivity.
Defined.

(** A drag from one list to another, for any two lists of different
    categories. *)
Lemma drop_between w c c' pl pl' r prj :
  boardInv w ->
  lists w !! c = Some pl -> lists w !! c' = Some pl' ->
  projectType pl <> projectType pl' ->
  objs w !! r = Some prj -> r ∈ assigned w c ->
  firstWithId w (id prj) r ->
  dropHandler c (dragStartHandler prj) w = w
  /\ let w' := dropHandler c' (dragStartHandler prj) w in
     r ∈ assigned w' c'
     /\ (r ∉ assigned w' c)
     /\ (forall c0 pl0 r', lists w !! c0 = Some pl0 -> r' <> r ->
           (r' ∈ assigned w' c0 <-> r' ∈ assigned w c0))
     /\ notified w w'
     /\ arr w' (projects w') = arr w (projects w).
Proof.
  intros Hinv Hc Hc' Hty Hr Hin Hfirst.
  pose proof Hinv as (Hwf & Hsync & _).
  destruct (Hsync c pl Hc) as [_ Ha].
  rewrite Ha in Hin. apply elem_of_filter_bool in Hin as [Hin Hrel].
  unfold relevantRef in Hrel. rewrite Hr in Hrel. apply relevant_status in Hrel.
  unfold dragStartHandler. rewrite (dropHandler_moves w c pl _ Hc).
  rewrite (dropHandler_moves w c' pl' _ Hc').
  split; [now apply (moveProject_same w _ _ r prj)|]. cbv zeta.
  set (st := match projectType pl' with active => Active | finished => Finished end).
  assert (Hne : status prj <> st).
  { rewrite Hrel. subst st. destruct (projectType pl), (projectType pl'); done. }
  destruct (moveProject_change w (id prj) st r prj Hwf Hfirst Hr Hne)
    as (_ & Hnot & Hobj & _ & _ & Harr & _).
  pose proof (boardInv_exec (OpMoveProject (id prj) st) w Hinv) as Hinv'.
  cbn [exec] in Hinv'. set (w' := moveProject (id prj) st w) in *.
  destruct Hinv' as (_ & Hsync' & _).
  assert (Hat : objs w' !! r = Some (setStatus st prj))
    by (now rewrite Hobj, list_lookup_alter_eq, Hr).
  assert (Hlists : forall c0 pl0, lists w !! c0 = Some pl0 ->
            assigned w' c0
            = List.filter (relevantRef w' (projectType pl0)) (arr w (projects w))).
  { intros c0 pl0 H0.
    assert (Hty0 : projectType <$> lists w' !! c0 = Some (projectType pl0)).
    { destruct (moveProject_cases w (id prj) st Hwf)
        as [Heq|(r1 & p1 & Hf1 & Hr1 & Hn1 & _)].
      - subst w'. rewrite Heq. now rewrite H0.
      - subst w'.
        destruct (moveProject_change w (id prj) st r1 p1 Hwf Hf1 Hr1 Hn1)
          as (-> & _).
        rewrite lists_updateListeners
          by (apply wf_set_objs; [apply length_alter|done]).
        cbn. now rewrite H0. }
    destruct (lists w' !! c0) as [pl0'|] eqn:E0; [|discriminate].
    injection Hty0 as Hty0.
    destruct (Hsync' c0 pl0' E0) as [_ Ha0]. now rewrite Ha0, Hty0, Harr. }
  split; [|split; [|split; [|split; [exact Hnot|exact Harr]]]].
  - rewrite (Hlists c' pl' Hc'). apply elem_of_filter_bool. split; [done|].
    unfold relevantRef. rewrite Hat. apply relevant_status. reflexivity.
  - rewrite (Hlists c pl Hc). intros H. apply elem_of_filter_bool in H as [_ H].
    unfold relevantRef in H. rewrite Hat in H. apply relevant_status in H.
    cbn in H. subst st. destruct (projectType pl), (projectType pl'); done.
  - intros c0 pl0 r' H0 Hr'. rewrite (Hlists c0 pl0 H0).
    destruct (Hsync c0 pl0 H0) as [_ ->]. rewrite !elem_of_filter_bool.
    unfold relevantRef. rewrite Hobj, list_lookup_alter_ne by done. reflexivity.
Qed.

(** X11. Dragging an item of one of the two lists and dropping it: on its
    own list nothing happens, not even a notification; on the other list
    the item leaves the first and shows in the second, every other item
    stays in its list, the store's array keeps its order, and the listeners
    are notified once. This is for an item whose record is the first with
    its id. *)
Theorem drag_drop_moves (w : World) (c c' r : nat) (prj : Project)
    (Hreach : BoardReachable w)
    (Hlists : (c = 0 /\ c' = 1) \/ (c = 1 /\ c' = 0))
    (Hr : objs w !! r = Some prj) (Hin : r ∈ assigned w c)
    (Hfirst : firstWithId w (id prj) r) :
  dropHandler c (dragStartHandler prj) w = w
  /\ let w' := dropHandler c' (dragStartHandler prj) w in
     r ∈ assigned w' c'
     /\ (r ∉ assigned w' c)
     /\ (forall r', r' <> r ->
           (r' ∈ assigned w' 0 <-> r' ∈ assigned w 0)
           /\ (r' ∈ assigned w' 1 <-> r' ∈ assigned w 1))
     /\ notified w w'
     /\ arr w' (projects w') = arr w (projects w).
Proof.
  pose proof (BoardReachable_inv w Hreach) as Hinv.
  pose proof Hinv as (_ & _ & H0 & H1).
  destruct (lists w !! 0) as [pl0|] eqn:E0; [|discriminate].
  destruct (lists w !! 1) as [pl1|] eqn:E1; [|discriminate].
  injection H0 as H0. injection H1 as H1.
  destruct Hlists as [[-> ->]|[-> ->]].
  - destruct (drop_between w 0 1 pl0 pl1 r prj Hinv E0 E1) as (Hown & Hmove);
      try done; [congruence|].
    split; [exact Hown|]. cbv zeta in *.
    destruct Hmove as (Ha & Hb & Hothers & Hn & Harr).
    split; [exact Ha|]. split; [exact Hb|].
    split; [|split; [exact Hn|exact Harr]].
    intros r' Hr'.
    split; [exact (Hothers 0 pl0 r' E0 Hr')|exact (Hothers 1 pl1 r' E1 Hr')].
  - destruct (drop_between w 1 0 pl1 pl0 r prj Hinv E1 E0) as (Hown & Hmove);
      try done; [congruence|].
    split; [exact Hown|]. cbv zeta in *.
    destruct Hmove as (Ha & Hb & Hothers & Hn & Harr).
    split; [exact Ha|]. split; [exact Hb|].
    split; [|split; [exact Hn|exact Harr]].
    intros r' Hr'.
    split; [exact (Hothers 0 pl0 r' E0 Hr')|exact (Hothers 1 pl1 r' E1 Hr')].
Qed.

Lemma drag_drop_moves_witness :
  BoardReachable w_board
  /\ 0 ∈ assigned w_board 0
  /\ 0 ∈ assigned (dropHandler 1 (js "0.5") w_board) 1
  /\ dropHandler 0 (js "0.5") w_board = w_board.
Proof.
  assert (Hr : BoardReachable w_board)
    by exact (UiReachable_Board _ UiReachable_w_board).
  assert (Hobj : objs w_board !! 0
                 = Some (mkProject (js "0.5") (js "A") (js "desc!!") 3%float Active))
    by (vm_compute; reflexivity).
  assert (Hin : 0 ∈ assigned w_board 0) by (vm_compute; left).
  assert (Hfirst : firstWithId w_board (js "0.5") 0)
    by (apply findProject_Some; vm_compute; reflexivity).
  destruct (drag_drop_moves w_board 0 1 0 _ Hr (or_introl (conj eq_refl eq_refl))
              Hobj Hin Hfirst) as (Hown & Hmove & _).
  exact (conj Hr (conj Hin (conj Hmove Hown))).
Defined.

End BoardProperties.
